(** * Merkle tree explorer: the hash tree of [src/merkle/index.ts]

    A shallow embedding of [hash], [MerkleNode], [MerkleTree.build],
    [MerkleTree.buildTree], [MerkleTree.getProof], [MerkleTree.generateProof]
    and [MerkleTree.verifyProof], together with the properties the
    specification states about them.

    Conventions.
    - A JavaScript string is a [string] holding its UTF-8 code units, so that
      [TextEncoder().encode] is the list of its bytes.
    - A [throw] is the [Throw] result; the errors are told apart by their
      messages, as in the source.
    - Every [new MerkleNode(...)] takes the next free address of an
      allocation counter threaded through the construction; [===] on nodes
      compares addresses.
    - The platform digest [window.crypto.subtle.digest] is a section
      variable, absent ([None]) when the page has no secure crypto; SHA-256
      itself is given in [Module SHA256] for the concrete vectors. *)

From Stdlib Require Import ZArith String Ascii Bool Arith Lia List.
From Stdlib.Strings Require Import Byte.
Import ListNotations.

Set Implicit Arguments.

(* ================================================================== *)
(** ** SHA-256 (FIPS 180-4), the digest the platform provides *)
(* ================================================================== *)

Module SHA256.
Local Open Scope Z_scope.

Definition w32 (x : Z) : Z := Z.land x 0xffffffff.
Definition add32 (x y : Z) : Z := w32 (x + y).
Definition rotr (n x : Z) : Z :=
  w32 (Z.lor (Z.shiftr x n) (Z.shiftl x (32 - n))).
Definition shr (n x : Z) : Z := Z.shiftr x n.

Definition Ch (x y z : Z) : Z :=
  Z.lxor (Z.land x y) (Z.land (w32 (Z.lnot x)) z).
Definition Maj (x y z : Z) : Z :=
  Z.lxor (Z.lxor (Z.land x y) (Z.land x z)) (Z.land y z).
Definition bsig0 (x : Z) : Z :=
  Z.lxor (Z.lxor (rotr 2 x) (rotr 13 x)) (rotr 22 x).
Definition bsig1 (x : Z) : Z :=
  Z.lxor (Z.lxor (rotr 6 x) (rotr 11 x)) (rotr 25 x).
Definition ssig0 (x : Z) : Z :=
  Z.lxor (Z.lxor (rotr 7 x) (rotr 18 x)) (shr 3 x).
Definition ssig1 (x : Z) : Z :=
  Z.lxor (Z.lxor (rotr 17 x) (rotr 19 x)) (shr 10 x).

(** The primes up to 311, the first sixty-four. *)
Definition is_prime (n : Z) : bool :=
  forallb (fun k => negb (n mod Z.of_nat k =? 0))
          (seq 2 (Z.to_nat n - 2)).

Definition primes : list Z :=
  filter is_prime (map Z.of_nat (seq 2 310)).

(** The largest [r] below [2 ^ k] with [r ^ e <= n], found bit by bit. *)
Fixpoint root_bits (e : Z) (k : nat) (n acc : Z) : Z :=
  match k with
  | O => acc
  | S k' =>
      let c := acc + 2 ^ Z.of_nat k' in
      if c ^ e <=? n then root_bits e k' n c else root_bits e k' n acc
  end.

(** The first 32 bits of the fractional part of the [e]-th root of [p]. *)
Definition frac32 (e p : Z) : Z :=
  w32 (root_bits e 40 (p * 2 ^ (32 * e)) 0).

(** Round constants: from the cube roots of the first sixty-four primes. *)
Definition K : list Z := Eval vm_compute in map (frac32 3) primes.

(** Initial hash value: from the square roots of the first eight primes. *)
Definition H0 : list Z := Eval vm_compute in map (frac32 2) (firstn 8 primes).

(** Big-endian bytes of a word of [n] bytes. *)
Fixpoint be_bytes (n : nat) (x : Z) : list Z :=
  match n with
  | O => []
  | S n' => Z.land (Z.shiftr x (8 * Z.of_nat n')) 0xff :: be_bytes n' x
  end.

(** Padding: the bit 1, zeros up to 56 modulo 64, the bit length on
    eight bytes. *)
Definition pad (msg : list Z) : list Z :=
  let len := Z.of_nat (length msg) in
  msg ++ [0x80] ++ repeat 0 (Z.to_nat ((55 - len) mod 64))
      ++ be_bytes 8 (8 * len).

Fixpoint be_words (fuel : nat) (bs : list Z) : list Z :=
  match fuel, bs with
  | S f, b0 :: b1 :: b2 :: b3 :: rest =>
      (Z.shiftl b0 24 + Z.shiftl b1 16 + Z.shiftl b2 8 + b3)
        :: be_words f rest
  | _, _ => []
  end.

(** The message schedule, newest word first. *)
Fixpoint extend (n : nat) (wrev : list Z) : list Z :=
  match n with
  | O => wrev
  | S n' =>
      let w := add32 (add32 (ssig1 (nth 1 wrev 0)) (nth 6 wrev 0))
                     (add32 (ssig0 (nth 14 wrev 0)) (nth 15 wrev 0)) in
      extend n' (w :: wrev)
  end.

Definition schedule (block : list Z) : list Z :=
  rev (extend 48 (rev block)).

Record regs := Regs { ra : Z; rb : Z; rc : Z; rd : Z;
                      re : Z; rf : Z; rg : Z; rh : Z }.

Definition round (s : regs) (kw : Z * Z) : regs :=
  let t1 := add32 (add32 (add32 (rh s) (bsig1 (re s)))
                         (add32 (Ch (re s) (rf s) (rg s)) (fst kw)))
                  (snd kw) in
  let t2 := add32 (bsig0 (ra s)) (Maj (ra s) (rb s) (rc s)) in
  Regs (add32 t1 t2) (ra s) (rb s) (rc s)
       (add32 (rd s) t1) (re s) (rf s) (rg s).

Definition compress (h : regs) (block : list Z) : regs :=
  let s := fold_left round (combine K (schedule block)) h in
  Regs (add32 (ra h) (ra s)) (add32 (rb h) (rb s))
       (add32 (rc h) (rc s)) (add32 (rd h) (rd s))
       (add32 (re h) (re s)) (add32 (rf h) (rf s))
       (add32 (rg h) (rg s)) (add32 (rh h) (rh s)).

Fixpoint blocks (fuel : nat) (h : regs) (ws : list Z) : regs :=
  match fuel, ws with
  | S f, _ :: _ => blocks f (compress h (firstn 16 ws)) (skipn 16 ws)
  | _, _ => h
  end.

Definition init : regs :=
  Regs (nth 0 H0 0) (nth 1 H0 0) (nth 2 H0 0) (nth 3 H0 0)
       (nth 4 H0 0) (nth 5 H0 0) (nth 6 H0 0) (nth 7 H0 0).

Definition digestZ (msg : list Z) : list Z :=
  let p := pad msg in
  let ws := be_words (length p) p in
  let h := blocks (length ws) init ws in
  flat_map (be_bytes 4)
    [ra h; rb h; rc h; rd h; re h; rf h; rg h; rh h].

Definition byte_of_Z (z : Z) : byte :=
  byte_of_ascii (ascii_of_N (Z.to_N (Z.land z 0xff))).
Definition Z_of_byte (b : byte) : Z := Z.of_N (Byte.to_N b).

(** [crypto.subtle.digest('SHA-256', buffer)] *)
Definition digest (msg : list byte) : list byte :=
  map byte_of_Z (digestZ (map Z_of_byte msg)).
End SHA256.

(* ================================================================== *)
(** ** Results, errors and the allocation monad *)
(* ================================================================== *)

(** The four [throw new Error(...)] of the source, and the exhaustion of
    the recursion bound of [buildTree], which no [throw] of the source
    stands for. *)
Inductive Error : Type :=
| EmptyInput
| IndexOutOfRange
| MalformedTree
| NoCrypto
| OutOfFuel.

(** The message each error is thrown with. *)
Definition message (e : Error) : option string :=
  match e with
  | EmptyInput => Some "Cannot build Merkle tree with 0 items"
  | IndexOutOfRange => Some "Invalid leaf index"
  | MalformedTree => Some "Malformed tree"
  | NoCrypto => Some "No secure crypto implementation found for SHA-256"
  | OutOfFuel => None
  end%string.

Inductive Res (A : Type) : Type :=
| Ok (a : A)
| Throw (e : Error).
Arguments Throw {A} e.

Definition bindR {A B} (c : Res A) (k : A -> Res B) : Res B :=
  match c with
  | Ok a => k a
  | Throw e => Throw e
  end.

(** A computation that may allocate objects: the state is the next free
    address. *)
Definition M (A : Type) : Type := nat -> Res (A * nat).

Definition ret {A} (a : A) : M A := fun st => Ok (a, st).
Definition throw {A} (e : Error) : M A := fun _ => Throw e.
Definition bind {A B} (c : M A) (k : A -> M B) : M B :=
  fun st => match c st with
            | Ok (a, st') => k a st'
            | Throw e => Throw e
            end.
Definition lift {A} (c : Res A) : M A :=
  fun st => match c with
            | Ok a => Ok (a, st)
            | Throw e => Throw e
            end.

Declare Scope res_scope.
Declare Scope alloc_scope.
Delimit Scope res_scope with res.
Delimit Scope alloc_scope with alloc.
Notation "x <- c ;; k" := (bindR c (fun x => k))
  (at level 61, c at next level, right associativity) : res_scope.
Notation "x <- c ;; k" := (bind c (fun x => k))
  (at level 61, c at next level, right associativity) : alloc_scope.

Fixpoint mapR {A B} (f : A -> Res B) (l : list A) : Res (list B) :=
  match l with
  | [] => Ok []
  | x :: l' => (y <- f x ;; ys <- mapR f l' ;; Ok (y :: ys))%res
  end.

Fixpoint mapM {A B} (f : A -> M B) (l : list A) : M (list B) :=
  match l with
  | [] => ret []
  | x :: l' => (y <- f x ;; ys <- mapM f l' ;; ret (y :: ys))%alloc
  end.

(* ================================================================== *)
(** ** Nodes, proofs and trees *)
(* ================================================================== *)

(** [class MerkleNode]; [addr] is the identity of the object. *)
#[warnings="-register-all"] Inductive MerkleNode : Type :=
| MkNode (addr : nat) (hash : string)
         (left right : option MerkleNode) (data : option string).

Module Node.
Definition addr (n : MerkleNode) : nat :=
  match n with MkNode a _ _ _ _ => a end.
Definition hash (n : MerkleNode) : string :=
  match n with MkNode _ h _ _ _ => h end.
Definition left (n : MerkleNode) : option MerkleNode :=
  match n with MkNode _ _ l _ _ => l end.
Definition right (n : MerkleNode) : option MerkleNode :=
  match n with MkNode _ _ _ r _ => r end.
Definition data (n : MerkleNode) : option string :=
  match n with MkNode _ _ _ _ d => d end.

(** [this.isLeaf = !left && !right] *)
Definition isLeaf (n : MerkleNode) : bool :=
  match left n, right n with
  | None, None => true
  | _, _ => false
  end.

(** [node === target], where the target may be [undefined]. *)
Definition same (n : MerkleNode) (target : option MerkleNode) : bool :=
  match target with
  | Some t => Nat.eqb (addr n) (addr t)
  | None => false
  end.
End Node.

(** [new MerkleNode(hash, left, right, data)] *)
Definition new_MerkleNode (hash : string) (left right : option MerkleNode)
    (data : option string) : M MerkleNode :=
  fun st => Ok (MkNode st hash left right data, S st).

Inductive Direction : Type := Left | Right.

Record MerkleProofStep : Type := Step {
  siblingHash : string;
  direction : Direction
}.

Definition MerkleProof : Type := list MerkleProofStep.

(** [Map<string, MerkleNode[]>], in insertion order. *)
Definition LeafMap : Type := list (string * list MerkleNode).

Fixpoint map_get (k : string) (m : LeafMap) : option (list MerkleNode) :=
  match m with
  | [] => None
  | (k', v) :: m' => if String.eqb k k' then Some v else map_get k m'
  end.

Fixpoint map_set (k : string) (v : list MerkleNode) (m : LeafMap) : LeafMap :=
  match m with
  | [] => [(k, v)]
  | (k', v') :: m' =>
      if String.eqb k k' then (k, v) :: m' else (k', v') :: map_set k v m'
  end.

Record MerkleTree : Type := MkTree {
  leaves : list MerkleNode;
  root : MerkleNode;
  leafMap : LeafMap
}.

(* ================================================================== *)
(** ** Hex encoding of a digest *)
(* ================================================================== *)

Definition hexDigit (n : N) : ascii :=
  match n with
  | 0 => "0" | 1 => "1" | 2 => "2" | 3 => "3" | 4 => "4" | 5 => "5"
  | 6 => "6" | 7 => "7" | 8 => "8" | 9 => "9" | 10 => "a" | 11 => "b"
  | 12 => "c" | 13 => "d" | 14 => "e" | _ => "f"
  end%N%char.

(** [b.toString(16)] for a byte. *)
Definition toString16 (b : byte) : string :=
  let n := Byte.to_N b in
  if (n <? 16)%N then String (hexDigit n) EmptyString
  else String (hexDigit (n / 16)) (String (hexDigit (n mod 16)) EmptyString).

(** [s.padStart(2, '0')] *)
Definition padStart2 (s : string) : string :=
  match String.length s with
  | 0 => "00"
  | 1 => String "0" s
  | _ => s
  end%string.

(** [Array.from(bytes).map(b => b.toString(16).padStart(2,'0')).join('')] *)
Definition toHex (digest : list byte) : string :=
  String.concat "" (map (fun b => padStart2 (toString16 b)) digest).

(** [new TextEncoder().encode(data)]: the bytes the string holds.  The
    encoder writes U+FFFD for a lone surrogate, so two JavaScript strings
    that differ only there are one string here. *)
Definition utf8 (data : string) : list byte := list_byte_of_string data.

(* ================================================================== *)
(** ** The hash tree *)
(* ================================================================== *)

Section Merkle.

(** [window.crypto.subtle.digest] bound to ['SHA-256'], when present. *)
Variable subtle : option (list byte -> list byte).

(** [hash], lines 6-22. *)
Definition hash (data : string) : Res string :=
  let buffer := utf8 data in
  match subtle with
  | Some digest => Ok (toHex (digest buffer))
  | None => Throw NoCrypto
  end.

(** The [for] loop of [buildTree], lines 150-162: the nodes are taken two
    at a time; a last node without partner gets a new node carrying only
    its hash as right sibling. *)
Fixpoint pairLevel (nodes : list MerkleNode) : M (list MerkleNode) :=
  match nodes with
  | [] => ret []
  | lnode :: rest =>
      (rnode <- match rest with
                | r :: _ => ret r
                | [] => new_MerkleNode (Node.hash lnode) None None None
                end ;;
       parentHash <- lift (hash (Node.hash lnode ++ Node.hash rnode)) ;;
       parent <- new_MerkleNode parentHash (Some lnode) (Some rnode) None ;;
       nextLevel <- match rest with
                    | _ :: rest' => pairLevel rest'
                    | [] => ret []
                    end ;;
       ret (parent :: nextLevel))%alloc
  end.

(** [buildTree], lines 146-164.  The recursion of the source is bounded
    here by [fuel]; on the empty list the source never reaches a level
    of length one, and the bound runs out. *)
Fixpoint buildTree_rec (fuel : nat) (nodes : list MerkleNode)
    : M MerkleNode :=
  match nodes with
  | [n] => ret n
  | _ =>
      match fuel with
      | O => throw OutOfFuel
      | S fuel' =>
          (nextLevel <- pairLevel nodes ;; buildTree_rec fuel' nextLevel)%alloc
      end
  end.

Definition buildTree (nodes : list MerkleNode) : M MerkleNode :=
  buildTree_rec (length nodes) nodes.

(** The [forEach] filling [leafMap], lines 80-85. *)
Definition fillLeafMap (leaves : list MerkleNode) : LeafMap :=
  fold_left
    (fun m leaf =>
       let arr := match map_get (Node.hash leaf) m with
                  | Some a => a
                  | None => []
                  end in
       map_set (Node.hash leaf) (arr ++ [leaf]) m)
    leaves [].

(** [MerkleTree.build], lines 71-87.  [hashes[i]] is paired with
    [dataItems[i]]; both arrays have the same length. *)
Definition build (dataItems : list string) : M MerkleTree :=
  if Nat.eqb (length dataItems) 0 then throw EmptyInput
  else
    (hashes <- lift (mapR hash dataItems) ;;
     leaves <- mapM (fun ih : string * string =>
                       new_MerkleNode (snd ih) None None (Some (fst ih)))
                    (combine dataItems hashes) ;;
     root <- buildTree leaves ;;
     ret (MkTree leaves root (fillLeafMap leaves)))%alloc.

(** [getRootHash], [getLeafHashes]. *)
Definition getRootHash (t : MerkleTree) : string := Node.hash (root t).
Definition getLeafHashes (t : MerkleTree) : list string :=
  map Node.hash (leaves t).

End Merkle.

(** [traverse] inside [generateProof], lines 176-188; the array [proof] it
    pushes to is passed in and handed back. *)
Fixpoint traverse (targetLeaf : option MerkleNode) (node : MerkleNode)
    (proof : MerkleProof) : Res (bool * MerkleProof) :=
  if Node.isLeaf node then Ok (Node.same node targetLeaf, proof)
  else
    match node with
    | MkNode _ _ (Some l) (Some r) _ =>
        match traverse targetLeaf l proof with
        | Throw e => Throw e
        | Ok (true, proof1) =>
            Ok (true, proof1 ++ [Step (Node.hash r) Right])
        | Ok (false, proof1) =>
            match traverse targetLeaf r proof1 with
            | Throw e => Throw e
            | Ok (true, proof2) =>
                Ok (true, proof2 ++ [Step (Node.hash l) Left])
            | Ok (false, proof2) => Ok (false, proof2)
            end
        end
    | _ => Throw MalformedTree
    end.

(** [generateProof], lines 170-192. *)
Definition generateProof (root : MerkleNode) (targetLeaf : option MerkleNode)
    : Res MerkleProof :=
  (r <- traverse targetLeaf root [] ;; Ok (snd r))%res.

(** [getProof], lines 116-120. *)
Definition getProof (t : MerkleTree) (index : Z) : Res MerkleProof :=
  if (index <? 0)%Z || (index >=? Z.of_nat (length (leaves t)))%Z
  then Throw IndexOutOfRange
  else generateProof (root t) (nth_error (leaves t) (Z.to_nat index)).

Section Verify.
Variable subtle : option (list byte -> list byte).

(** The [for ... of] loop of [verifyProof], lines 132-138. *)
Fixpoint verifyLoop (computedHash : string) (proof : MerkleProof)
    : Res string :=
  match proof with
  | [] => Ok computedHash
  | step :: rest =>
      (h <- match direction step with
            | Left => hash subtle (siblingHash step ++ computedHash)
            | Right => hash subtle (computedHash ++ siblingHash step)
            end ;;
       verifyLoop h rest)%res
  end.

(** [MerkleTree.verifyProof], lines 126-140. *)
Definition verifyProof (data : string) (proof : MerkleProof)
    (rootHash : string) : Res bool :=
  (h0 <- hash subtle data ;;
   computedHash <- verifyLoop h0 proof ;;
   Ok (String.eqb computedHash rootHash))%res.
End Verify.

(* ================================================================== *)
(** ** Vocabulary of the specification *)
(* ================================================================== *)

(** The digest of a data item as the tree stores it: the lowercase hex
    string of the platform digest [d] of its UTF-8 bytes. *)
Definition hexDigest (d : list byte -> list byte) (data : string) : string :=
  toHex (d (utf8 data)).

(** A page with the Web Crypto API: the platform digest is SHA-256. *)
Definition webCrypto : option (list byte -> list byte) :=
  Some SHA256.digest.

(** The folding rule for one proof step as the code applies it: the two
    digests are hex strings, written one after the other as text and
    hashed. *)
Definition spec_step (d : list byte -> list byte) (computed : string)
    (step : MerkleProofStep) : string :=
  match direction step with
  | Left => hexDigest d (siblingHash step ++ computed)
  | Right => hexDigest d (computed ++ siblingHash step)
  end.

(** Verification as a fold, with the digests as the code has them, hex
    strings throughout: hash the data, fold the steps in order, compare
    with the root hash. *)
Definition spec_verifyProof (d : list byte -> list byte) (data : string)
    (proof : MerkleProof) (rootDigest : string) : bool :=
  String.eqb (fold_left (spec_step d) proof (hexDigest d data)) rootDigest.

(** Induction on nodes, through the optional children. *)
Definition opt_all (P : MerkleNode -> Prop) (o : option MerkleNode) : Prop :=
  match o with
  | Some x => P x
  | None => True
  end.

Section NodeInduction.
Variable P : MerkleNode -> Prop.
Hypothesis step : forall a h l r dt,
    opt_all P l -> opt_all P r -> P (MkNode a h l r dt).

Fixpoint node_ind (n : MerkleNode) : P n :=
  match n with
  | MkNode a h l r dt =>
      step a h l r dt
        (match l as o return opt_all P o with
         | Some x => node_ind x
         | None => I
         end)
        (match r as o return opt_all P o with
         | Some x => node_ind x
         | None => I
         end)
  end.
End NodeInduction.

(** The childless nodes under a node, left to right. *)
Fixpoint fringe (n : MerkleNode) : list MerkleNode :=
  match n with
  | MkNode _ _ None None _ => [n]
  | MkNode _ _ l r _ =>
      match l with Some x => fringe x | None => [] end
      ++ match r with Some x => fringe x | None => [] end
  end.

(** Number of edges on the longest way down from a node. *)
Fixpoint height (n : MerkleNode) : nat :=
  match n with
  | MkNode _ _ None None _ => 0
  | MkNode _ _ l r _ =>
      S (Nat.max (match l with Some x => height x | None => 0 end)
                 (match r with Some x => height x | None => 0 end))
  end.

(** [Subnode p t]: the node [p] occurs in the tree rooted at [t]. *)
Inductive Subnode (p : MerkleNode) : MerkleNode -> Prop :=
| Sub_here : Subnode p p
| Sub_left a h l r dt :
    Subnode p l -> Subnode p (MkNode a h (Some l) r dt)
| Sub_right a h l r dt :
    Subnode p r -> Subnode p (MkNode a h l (Some r) dt).

(** Every node is childless or has both children. *)
Definition TwoChildren (t : MerkleNode) : Prop :=
  forall p, Subnode p t ->
    (Node.left p = None /\ Node.right p = None)
    \/ (exists l r, Node.left p = Some l /\ Node.right p = Some r).

(** A tree as the reduction builds it: childless nodes, and parents with
    two children whose hash is the digest of the two child hashes one
    after the other. *)
Inductive WellFormed (d : list byte -> list byte) : MerkleNode -> Prop :=
| WF_leaf a h dt : WellFormed d (MkNode a h None None dt)
| WF_pair a l r dt :
    WellFormed d l -> WellFormed d r ->
    WellFormed d
      (MkNode a (hexDigest d (Node.hash l ++ Node.hash r))
              (Some l) (Some r) dt).

(** No childless node under [t] is the target. *)
Definition absent (target : option MerkleNode) (t : MerkleNode) : Prop :=
  forall y, In y (fringe t) -> Node.same y target = false.

(** [PathTo target t x s]: the childless node [x] under [t] is the target,
    and [s] lists, from [x] upwards to the children of [t], the hash of the
    other child at each level with the side that other child is on.  A
    target is looked for in the left subtree first. *)
Inductive PathTo (target : option MerkleNode)
    : MerkleNode -> MerkleNode -> MerkleProof -> Prop :=
| Path_here n :
    Node.isLeaf n = true -> Node.same n target = true ->
    PathTo target n n []
| Path_left a h l r dt x s :
    PathTo target l x s ->
    PathTo target (MkNode a h (Some l) (Some r) dt) x
           (s ++ [Step (Node.hash r) Right])
| Path_right a h l r dt x s :
    absent target l ->
    PathTo target r x s ->
    PathTo target (MkNode a h (Some l) (Some r) dt) x
           (s ++ [Step (Node.hash l) Left]).

(** [Visits target t n]: the traversal started at [t] calls [traverse] on
    [n]: on [t] itself, in the left subtree, and in the right subtree once
    the left one has been searched without finding the target. *)
Inductive Visits (target : option MerkleNode)
    : MerkleNode -> MerkleNode -> Prop :=
| Visit_here t : Visits target t t
| Visit_left a h l r dt n :
    Visits target l n ->
    Visits target (MkNode a h (Some l) (Some r) dt) n
| Visit_right a h l r dt n :
    traverse target l [] = Ok (false, []) ->
    Visits target r n ->
    Visits target (MkNode a h (Some l) (Some r) dt) n.

(** An internal node that misses a child. *)
Definition MissingChild (n : MerkleNode) : Prop :=
  Node.isLeaf n = false /\ (Node.left n = None \/ Node.right n = None).

(** One pass of the reduction, as a relation between the level and the
    allocation counter before and after. *)
Inductive LevelStep (d : list byte -> list byte)
    : list MerkleNode -> nat -> list MerkleNode -> nat -> Prop :=
| LS_nil st : LevelStep d [] st [] st
| LS_odd x st :
    LevelStep d [x] st
      [MkNode (S st) (hexDigest d (Node.hash x ++ Node.hash x))
              (Some x) (Some (MkNode st (Node.hash x) None None None)) None]
      (S (S st))
| LS_pair x y rest st next st' :
    LevelStep d rest (S st) next st' ->
    LevelStep d (x :: y :: rest) st
      (MkNode st (hexDigest d (Node.hash x ++ Node.hash y))
              (Some x) (Some y) None :: next)
      st'.

(** Every proof of a node allocated below [B] has [j] steps. *)
Definition DepthIs (B j : nat) (t : MerkleNode) : Prop :=
  forall target x s, PathTo target t x s -> Node.addr x < B -> length s = j.

(** What holds of level [j] of the reduction over the leaves [L], which
    were allocated below [B]: the nodes are well formed, of height [j],
    keep every leaf [j] edges down, and their childless nodes are the
    leaves followed by the duplicates made so far, all at distinct
    addresses. *)
Record LevelInv (d : list byte -> list byte) (L : list MerkleNode)
    (B j st : nat) (nodes : list MerkleNode) : Prop := {
  inv_wf : Forall (WellFormed d) nodes;
  inv_height : Forall (fun t => height t = j) nodes;
  inv_depth : Forall (DepthIs B j) nodes;
  inv_bound : B <= st;
  inv_fringe : exists dups,
      flat_map fringe nodes = L ++ dups
      /\ Forall (fun x => B <= Node.addr x < st) dups
      /\ NoDup (map Node.addr dups)
}.

(** The leaves [build] allocates from address [st] on. *)
Fixpoint leavesAt (d : list byte -> list byte) (st : nat)
    (items : list string) : list MerkleNode :=
  match items with
  | [] => []
  | item :: rest =>
      MkNode st (hexDigest d item) None None (Some item)
        :: leavesAt d (S st) rest
  end.

(* ================================================================== *)
(** ** Further vocabulary: hex strings, addresses, index bits *)
(* ================================================================== *)

(** The two characters [toHex] writes for one byte. *)
Definition byteHex (b : byte) : string := padStart2 (toString16 b).

(** A character of a lowercase hex string. *)
Definition isHexChar (c : ascii) : bool :=
  let n := N_of_ascii c in
  ((48 <=? n) && (n <=? 57) || (97 <=? n) && (n <=? 102))%N.

Fixpoint allHex (s : string) : bool :=
  match s with
  | EmptyString => true
  | String c s' => isHexChar c && allHex s'
  end.

(** Reading a lowercase hex string back, two characters per byte. *)
Definition unhexDigit (c : ascii) : option N :=
  let n := N_of_ascii c in
  if ((48 <=? n) && (n <=? 57))%N then Some (n - 48)%N
  else if ((97 <=? n) && (n <=? 102))%N then Some (n - 87)%N
  else None.

Fixpoint spec_fromHex (s : string) : option (list byte) :=
  match s with
  | EmptyString => Some []
  | String c1 (String c2 rest) =>
      match unhexDigit c1, unhexDigit c2, spec_fromHex rest with
      | Some hi, Some lo, Some bs =>
          match Byte.of_N (16 * hi + lo) with
          | Some b => Some (b :: bs)
          | None => None
          end
      | _, _, _ => None
      end
  | String _ EmptyString => None
  end.

(** The same tree allocated [k] addresses further on. *)
Fixpoint shift (k : nat) (n : MerkleNode) : MerkleNode :=
  match n with
  | MkNode a h l r dt =>
      MkNode (a + k) h
             (match l with Some x => Some (shift k x) | None => None end)
             (match r with Some x => Some (shift k x) | None => None end)
             dt
  end.

(** The sides a proof of the leaf at index [i] names over [levels]
    levels, read off the binary digits of [i], lowest first: a leaf or
    subtree at an even position has its sibling on the right. *)
Definition spec_directions (i levels : nat) : list Direction :=
  map (fun b => if Nat.testbit i b then Left else Right) (seq 0 levels).

(** Every path in [t] to a node allocated in [[st0, B)] belongs to position
    [p] of level [j] and names the sides given by the digits of its index. *)
Definition BitsAt (st0 B j p : nat) (t : MerkleNode) : Prop :=
  forall target x s,
    PathTo target t x s -> Node.addr x < B ->
    (Node.addr x - st0) / 2 ^ j = p
    /\ map direction s = spec_directions (Node.addr x - st0) j.

(** The leaves stored under a key, none when the key is missing. *)
Definition group (k : string) (m : LeafMap) : list MerkleNode :=
  match map_get k m with
  | Some a => a
  | None => []
  end.

(** The step of the [forEach] that fills the map. *)
Definition fillStep (m : LeafMap) (leaf : MerkleNode) : LeafMap :=
  map_set (Node.hash leaf) (group (Node.hash leaf) m ++ [leaf]) m.

(** [BitsAt] for every node of a level, by position. *)
Definition BitsLevel (st0 B j : nat) (nodes : list MerkleNode) : Prop :=
  forall p t, nth_error nodes p = Some t -> BitsAt st0 B j p t.

(** The childless nodes of level [j] are the leaves [L] followed by at
    most [j] duplicates, which carry no data; when the number of leaves
    [n0] is a power of two there is no duplicate and the level length is a
    power of two. *)
Definition DupsInv (L : list MerkleNode) (n0 j : nat)
    (nodes : list MerkleNode) : Prop :=
  exists dups,
    flat_map fringe nodes = L ++ dups
    /\ length dups <= j
    /\ Forall (fun x => Node.isLeaf x = true /\ Node.data x = None) dups
    /\ ((exists k, n0 = 2 ^ k) ->
        dups = [] /\ exists m, length nodes = 2 ^ m).

(** A tree with every node moved [k] addresses further on. *)
Definition shiftTree (k : nat) (t : MerkleTree) : MerkleTree :=
  MkTree (map (shift k) (leaves t)) (shift k (root t))
         (fillLeafMap (map (shift k) (leaves t))).

(* ================================================================== *)
(** ** The page: [App.tsx] *)
(* ================================================================== *)

Module App.

(** [s.split('\n')] *)
Fixpoint split_nl (s : string) : list string :=
  match s with
  | EmptyString => [EmptyString]
  | String c s' =>
      if Ascii.eqb c "010" then EmptyString :: split_nl s'
      else match split_nl s' with
           | h :: t => String c h :: t
           | [] => [String c EmptyString]
           end
  end.

(** [items.join('\n')] *)
Definition join_nl (items : list string) : string :=
  String.concat (String "010" EmptyString) items.

(** White space and line terminators of ECMAScript, by their UTF-8 bytes:
    TAB, LF, VT, FF, CR, SP; U+00A0; U+1680, U+2000 to U+200A, U+2028,
    U+2029, U+202F, U+205F, U+3000, U+FEFF. *)
Definition ws1 (a : N) : bool :=
  ((a =? 9) || (a =? 10) || (a =? 11) || (a =? 12) || (a =? 13)
   || (a =? 32))%N.

Definition ws2 (a b : N) : bool := ((a =? 0xC2) && (b =? 0xA0))%N.

Definition ws3 (a b c : N) : bool :=
  (((a =? 0xE1) && (b =? 0x9A) && (c =? 0x80))
   || ((a =? 0xE2) && (b =? 0x80) && ((0x80 <=? c) && (c <=? 0x8A)))
   || ((a =? 0xE2) && (b =? 0x80)
       && ((c =? 0xA8) || (c =? 0xA9) || (c =? 0xAF)))
   || ((a =? 0xE2) && (b =? 0x81) && (c =? 0x9F))
   || ((a =? 0xE3) && (b =? 0x80) && (c =? 0x80))
   || ((a =? 0xEF) && (b =? 0xBB) && (c =? 0xBF)))%N.

(** Dropping the white space a list of bytes starts with. *)
Fixpoint dropStart (l : list ascii) : list ascii :=
  match l with
  | a :: l1 =>
      if ws1 (N_of_ascii a) then dropStart l1
      else
        match l1 with
        | b :: l2 =>
            if ws2 (N_of_ascii a) (N_of_ascii b) then dropStart l2
            else
              match l2 with
              | c :: l3 =>
                  if ws3 (N_of_ascii a) (N_of_ascii b) (N_of_ascii c)
                  then dropStart l3
                  else l
              | [] => l
              end
        | [] => l
        end
  | [] => []
  end.

(** The same on the reversed list: the white space the string ends with. *)
Fixpoint dropEndRev (l : list ascii) : list ascii :=
  match l with
  | c :: l1 =>
      if ws1 (N_of_ascii c) then dropEndRev l1
      else
        match l1 with
        | b :: l2 =>
            if ws2 (N_of_ascii b) (N_of_ascii c) then dropEndRev l2
            else
              match l2 with
              | a :: l3 =>
                  if ws3 (N_of_ascii a) (N_of_ascii b) (N_of_ascii c)
                  then dropEndRev l3
                  else l
              | [] => l
              end
        | [] => l
        end
  | [] => []
  end.

(** [s.trim()] *)
Definition trim (s : string) : string :=
  string_of_list_ascii
    (rev (dropEndRev (rev (dropStart (list_ascii_of_string s))))).

(** [Boolean(s)] for a string. *)
Definition truthy (s : string) : bool :=
  negb (String.eqb s EmptyString).

(** [dataInput.split('\n').map(s => s.trim()).filter(Boolean)] *)
Definition parseItems (dataInput : string) : list string :=
  filter truthy (map trim (split_nl dataInput)).

(** The state of the component. *)
Record State : Type := MkState {
  dataInput : string;
  tree : option MerkleTree;
  leafIndex : Z;
  proof : MerkleProof;
  proofValid : option bool;
  error : option string
}.

(** The state the component starts in. *)
Definition initial : State :=
  MkState (join_nl ["apple"; "banana"; "cherry"; "date"; "elderberry";
                    "fig"; "grape"]%string)
          None 0 [] None None.

(** [e.message || String(e)]; running out of recursion bound stands for
    the engine's own error, which the page never meets. *)
Definition errorText (e : Error) : string :=
  match message e with
  | Some m => m
  | None => "Maximum call stack size exceeded"
  end%string.

(** The [catch] branch of [buildTree], lines 29-34. *)
Definition buildFailed (s : State) (msg : string) : State :=
  MkState (dataInput s) None (leafIndex s) [] None (Some msg).

(** [buildTree], lines 16-35: the state after the handler has run, and
    the allocation counter. *)
Definition buildTree (subtle : option (list byte -> list byte))
    (s : State) (st : nat) : State * nat :=
  let items := parseItems (dataInput s) in
  if Nat.eqb (length items) 0
  then (buildFailed s "Enter at least one data item.", st)
  else
    match build subtle items st with
    | Ok (newTree, st') =>
        (MkState (dataInput s) (Some newTree) 0 [] None None, st')
    | Throw e => (buildFailed s (errorText e), st)
    end.

(** The [catch] branch of [selectLeaf], lines 49-53. *)
Definition selectFailed (s : State) (idx : Z) (msg : string) : State :=
  MkState (dataInput s) (tree s) idx [] None (Some msg).

(** [selectLeaf], lines 37-54.  A leaf without data is hashed as the empty
    string ([TextEncoder.encode(undefined)]); reading [.data] of a missing
    leaf is the engine's type error, which [getProof] has ruled out. *)
Definition selectLeaf (subtle : option (list byte -> list byte))
    (s : State) (idx : Z) : State :=
  match tree s with
  | None => s
  | Some t =>
      match getProof t idx with
      | Throw e => selectFailed s idx (errorText e)
      | Ok prf =>
          match nth_error (leaves t) (Z.to_nat idx) with
          | None =>
              selectFailed s idx
                "Cannot read properties of undefined (reading 'data')"
          | Some leaf =>
              let data := match Node.data leaf with
                          | Some x => x
                          | None => EmptyString
                          end in
              match verifyProof subtle data prf (getRootHash t) with
              | Ok valid =>
                  MkState (dataInput s) (tree s) idx prf (Some valid)
                          (error s)
              | Throw e => selectFailed s idx (errorText e)
              end
          end
      end
  end.

End App.

(* ================================================================== *)
(** ** The tree view: [components/TreeVisualizer.tsx] *)
(* ================================================================== *)

Module TreeVisualizer.

(** What [renderNode] draws for a node, by the values its markup is made
    of: the React key, the depth the margin is computed from, whether it
    is highlighted, the hash shown, and either the data shown under a
    leaf, if any, or the boxes of the two children. *)
Inductive Box : Type :=
| LeafBox (key : string) (depth : nat) (isHighlight : bool)
          (hash : string) (data : option string)
| NodeBox (key : string) (depth : nat) (isHighlight : bool)
          (hash : string) (left right : Box).

Definition key (b : Box) : string :=
  match b with
  | LeafBox k _ _ _ _ => k
  | NodeBox k _ _ _ _ _ => k
  end.
Definition depth (b : Box) : nat :=
  match b with
  | LeafBox _ n _ _ _ => n
  | NodeBox _ n _ _ _ _ => n
  end.
Definition isHighlight (b : Box) : bool :=
  match b with
  | LeafBox _ _ x _ _ => x
  | NodeBox _ _ x _ _ _ => x
  end.
Definition hash (b : Box) : string :=
  match b with
  | LeafBox _ _ _ h _ => h
  | NodeBox _ _ _ h _ _ => h
  end.

(** [highlightedHash], lines 232-235 of the file. *)
Definition highlightedHash (highlightLeafIndex : option Z)
    (leaves : list MerkleNode) : option string :=
  match highlightLeafIndex with
  | Some i =>
      if (i <? 0)%Z then None
      else option_map Node.hash (nth_error leaves (Z.to_nat i))
  | None => None
  end.

(** [renderNode]; [None] is the type error of reading a child that is
    not there. *)
Fixpoint renderNode (highlighted : option string) (node : MerkleNode)
    (depth : nat) (key : string) : option Box :=
  match node with
  | MkNode _ h l r dt =>
      let isHighlight := match highlighted with
                         | Some hh => String.eqb h hh
                         | None => false
                         end in
      if Node.isLeaf node
      then
        Some (LeafBox key depth isHighlight h
                      (match dt with
                       | Some x => if App.truthy x then Some x else None
                       | None => None
                       end))
      else
        match l with
        | None => None
        | Some ln =>
            match renderNode highlighted ln (S depth) (key ++ "L") with
            | None => None
            | Some bl =>
                match r with
                | None => None
                | Some rn =>
                    match renderNode highlighted rn (S depth) (key ++ "R")
                    with
                    | None => None
                    | Some br =>
                        Some (NodeBox key depth isHighlight h bl br)
                    end
                end
            end
        end
  end.

(** The component: [renderNode(root, 0, 'root')]. *)
Definition render (root : MerkleNode) (highlightLeafIndex : option Z)
    (leaves : list MerkleNode) : option Box :=
  renderNode (highlightedHash highlightLeafIndex leaves) root 0 "root".

(** The boxes of a drawing, parents first, left before right. *)
Fixpoint boxes (b : Box) : list Box :=
  match b with
  | LeafBox _ _ _ _ _ => [b]
  | NodeBox _ _ _ _ bl br => b :: boxes bl ++ boxes br
  end.

End TreeVisualizer.

(** The nodes of a tree, parents first, left before right. *)
Fixpoint nodes (n : MerkleNode) : list MerkleNode :=
  match n with
  | MkNode _ _ l r _ =>
      n :: match l with Some x => nodes x | None => [] end
        ++ match r with Some x => nodes x | None => [] end
  end.

(** The ways down from a node, as the letters [renderNode] appends to the
    key. *)
Fixpoint paths (n : MerkleNode) : list string :=
  match n with
  | MkNode _ _ l r _ =>
      EmptyString
        :: map (String "L") (match l with Some x => paths x | None => [] end)
        ++ map (String "R") (match r with Some x => paths x | None => [] end)
  end.

(** A string without line feed. *)
Definition noLF (s : string) : Prop :=
  Forall (fun c => c <> "010"%char) (list_ascii_of_string s).

(* ================================================================== *)
(** ** Verification over raw digest bytes, and the texts hashed *)
(* ================================================================== *)

(** A proof step as the specification has it: the sibling digest as raw
    bytes, and its side. *)
Record RawStep : Type := MkRawStep {
  rawSibling : list byte;
  rawDirection : Direction
}.

(** The folding rule in the words of the specification:
    [sha256(sibling || computed)] for a left sibling,
    [sha256(computed || sibling)] for a right one, [||] joining the raw
    bytes of the digests. *)
Definition spec_raw_step (d : list byte -> list byte)
    (computed : list byte) (step : RawStep) : list byte :=
  match rawDirection step with
  | Left => d (rawSibling step ++ computed)
  | Right => d (computed ++ rawSibling step)
  end.

Fixpoint bytes_eqb (a b : list byte) : bool :=
  match a, b with
  | [], [] => true
  | x :: a', y :: b' => Byte.eqb x y && bytes_eqb a' b'
  | _, _ => false
  end.

(** Verification in the words of the specification: the digest of the
    data, the steps folded in order, raw byte equality with the root. *)
Definition spec_raw_verifyProof (d : list byte -> list byte)
    (data : string) (proof : list RawStep) (rootDigest : list byte) : bool :=
  bytes_eqb (fold_left (spec_raw_step d) proof (d (utf8 data))) rootDigest.

(** The text [verifyProof] hashes at a step, given the hash computed so
    far. *)
Definition stepText (computed : string) (step : MerkleProofStep) : string :=
  match direction step with
  | Left => siblingHash step ++ computed
  | Right => computed ++ siblingHash step
  end.

(** The texts hashed by the loop of [verifyProof], in order. *)
Fixpoint stepTexts (d : list byte -> list byte) (computed : string)
    (proof : MerkleProof) : list string :=
  match proof with
  | [] => []
  | step :: rest =>
      stepText computed step
        :: stepTexts d (hexDigest d (stepText computed step)) rest
  end.

(** All the texts a call of [verifyProof] hashes: the data, then one text
    per step. *)
Definition hashedTexts (d : list byte -> list byte) (data : string)
    (proof : MerkleProof) : list string :=
  data :: stepTexts d (hexDigest d data) proof.

(* ================================================================== *)
(** ** The digest on known vectors *)
(* ================================================================== *)

Example sha256_abc :
  hash webCrypto "abc"
  = Ok "ba7816bf8f01cfea414140de5dae2223b00361a396177a9cb410ff61f20015ad"%string.
Proof. vm_compute. reflexivity. Qed.

Example sha256_empty :
  hash webCrypto ""
  = Ok "e3b0c44298fc1c149afbf4c8996fb92427ae41e4649b934ca495991b7852b855"%string.
Proof. vm_compute. reflexivity. Qed.

(** A message of 56 bytes needs a second block for its padding. *)
Example sha256_two_blocks :
  toHex (SHA256.digest (repeat (byte_of_ascii "a") 56))
  = "b35439a4ac6f0948b6d6f9e3c6af0f5f590ce20f1bde7090ef7970686ec6738a"%string.
Proof. vm_compute. reflexivity. Qed.

Example hash_without_crypto : hash None "abc" = Throw NoCrypto.
Proof. reflexivity. Qed.

(** On the empty list the recursion of [buildTree] has no end. *)
Example buildTree_empty subtle fuel st :
  buildTree_rec subtle fuel [] st
  = match fuel with O => Throw OutOfFuel | S f => buildTree_rec subtle f [] st end.
Proof. destruct fuel; reflexivity. Qed.

(* ================================================================== *)
(** ** Traversal *)
(* ================================================================== *)

Lemma traverse_leaf target a h dt acc :
  traverse target (MkNode a h None None dt) acc
  = Ok (Node.same (MkNode a h None None dt) target, acc).
Proof. reflexivity. Qed.

Lemma traverse_pair target a h l r dt acc :
  traverse target (MkNode a h (Some l) (Some r) dt) acc
  = match traverse target l acc with
    | Throw e => Throw e
    | Ok (true, proof1) => Ok (true, proof1 ++ [Step (Node.hash r) Right])
    | Ok (false, proof1) =>
        match traverse target r proof1 with
        | Throw e => Throw e
        | Ok (true, proof2) => Ok (true, proof2 ++ [Step (Node.hash l) Left])
        | Ok (false, proof2) => Ok (false, proof2)
        end
    end.
Proof. reflexivity. Qed.

Lemma traverse_missing target n acc :
  MissingChild n -> traverse target n acc = Throw MalformedTree.
Proof.
  destruct n as [a h [l|] [r|] dt]; intros [Hleaf [Hl | Hr]];
    try discriminate; reflexivity.
Qed.

(** The steps pushed do not depend on what the array held before. *)
Lemma traverse_acc target t :
  forall acc,
    traverse target t acc
    = match traverse target t [] with
      | Ok (b, s) => Ok (b, acc ++ s)
      | Throw e => Throw e
      end.
Proof.
  induction t as [a h l r dt IHl IHr] using node_ind.
  destruct l as [l|], r as [r|]; simpl in IHl, IHr; intro acc;
    try reflexivity.
  - rewrite !traverse_pair, (IHl acc).
    destruct (traverse target l []) as [[[|] s]|e]; try reflexivity.
    + now rewrite app_assoc.
    + rewrite (IHr (acc ++ s)), (IHr s).
      destruct (traverse target r []) as [[[|] s']|e]; try reflexivity;
        now rewrite !app_assoc.
  - rewrite traverse_leaf, traverse_leaf. now rewrite app_nil_r.
Qed.

(** [traverse] has one way to fail. *)
Lemma traverse_throw target t :
  forall acc e, traverse target t acc = Throw e -> e = MalformedTree.
Proof.
  induction t as [a h l r dt IHl IHr] using node_ind.
  destruct l as [l|], r as [r|]; simpl in IHl, IHr; intros acc e;
    try (simpl; congruence).
  rewrite traverse_pair.
  destruct (traverse target l acc) as [[[|] s]|e'] eqn:El.
  - discriminate.
  - destruct (traverse target r s) as [[[|] s']|e''] eqn:Er;
      try discriminate.
    intros [= <-]. eapply IHr; eassumption.
  - intros [= <-]. eapply IHl; eassumption.
Qed.

(** A traversal that reaches an internal node missing a child throws, and
    so does [generateProof]. *)
Lemma traverse_visits_missing target t n :
  Visits target t n -> MissingChild n ->
  traverse target t [] = Throw MalformedTree.
Proof.
  induction 1 as [t | a h l r dt n Hv IH | a h l r dt n Hl Hv IH];
    intro Hm.
  - now apply traverse_missing.
  - rewrite traverse_pair, (IH Hm). reflexivity.
  - rewrite traverse_pair, Hl, (IH Hm). reflexivity.
Qed.

(** On a well-formed tree the traversal finds the target with its path, or
    searches the whole tree in vain. *)
Lemma traverse_path d target t :
  WellFormed d t ->
  (exists x s, traverse target t [] = Ok (true, s) /\ PathTo target t x s)
  \/ (traverse target t [] = Ok (false, []) /\ absent target t).
Proof.
  induction 1 as [a h dt | a l r dt Hl IHl Hr IHr].
  - rewrite traverse_leaf.
    destruct (Node.same (MkNode a h None None dt) target) eqn:E.
    + left. eexists _, []. split; [reflexivity|].
      now apply Path_here.
    + right. split; [reflexivity|].
      intros y [<- | []]. exact E.
  - rewrite traverse_pair.
    destruct IHl as [(x & s & -> & Hp) | [-> Hal]].
    + left. exists x, (s ++ [Step (Node.hash r) Right]).
      split; [reflexivity|]. now apply Path_left.
    + destruct IHr as [(x & s & -> & Hp) | [-> Har]].
      * left. exists x, (s ++ [Step (Node.hash l) Left]).
        split; [reflexivity|]. now apply Path_right.
      * right. split; [reflexivity|].
        intros y Hy. simpl in Hy. apply in_app_or in Hy.
        destruct Hy; [now apply Hal | now apply Har].
Qed.

(* ================================================================== *)
(** ** Paths *)
(* ================================================================== *)

Lemma fringe_leaf n : Node.isLeaf n = true -> fringe n = [n].
Proof. destruct n as [a h [l|] [r|] dt]; try discriminate; reflexivity. Qed.

Lemma path_found target t x s :
  PathTo target t x s ->
  In x (fringe t) /\ Node.isLeaf x = true /\ Node.same x target = true.
Proof.
  induction 1 as [n Hl Hs | a h l r dt x s _ IH | a h l r dt x s _ _ IH].
  - rewrite (fringe_leaf _ Hl). simpl. auto.
  - destruct IH as (Hin & ? & ?). simpl. auto using in_or_app.
  - destruct IH as (Hin & ? & ?). simpl. auto using in_or_app.
Qed.

(** A path through a pair node ends with the step for the other child. *)
Lemma path_pair_inv target a h l r dt x s :
  PathTo target (MkNode a h (Some l) (Some r) dt) x s ->
  (exists s0, s = s0 ++ [Step (Node.hash r) Right] /\ PathTo target l x s0)
  \/ (exists s0, s = s0 ++ [Step (Node.hash l) Left]
                 /\ absent target l /\ PathTo target r x s0).
Proof.
  inversion 1; subst.
  - discriminate.
  - left. eauto.
  - right. eauto.
Qed.

Lemma path_leaf_inv target a h dt x s :
  PathTo target (MkNode a h None None dt) x s ->
  x = MkNode a h None None dt /\ s = [].
Proof. inversion 1; subst; auto. Qed.

(** The empty path is the childless target itself. *)
Lemma path_nil target t x :
  PathTo target t x [] -> t = x.
Proof.
  inversion 1 as [n Hl Hs | a h l r dt x' s Hp Ht Hx Hs
                 | a h l r dt x' s Ha Hp Ht Hx Hs]; subst.
  - reflexivity.
  - now destruct s.
  - now destruct s.
Qed.

(** Where the path starts: some pair node under [t] has the target as one
    child, and the first step records the other child and its side. *)
Lemma path_first target t x s :
  PathTo target t x s -> s <> [] ->
  exists p sib,
    Subnode p t
    /\ ((Node.left p = Some x /\ Node.right p = Some sib
         /\ hd_error s = Some (Step (Node.hash sib) Right))
        \/ (Node.left p = Some sib /\ Node.right p = Some x
            /\ hd_error s = Some (Step (Node.hash sib) Left))).
Proof.
  induction 1 as [n Hl Hs | a h l r dt x s Hp IH | a h l r dt x s Ha Hp IH];
    intro Hne.
  - congruence.
  - destruct s as [|s1 s'].
    + apply path_nil in Hp as ->.
      exists (MkNode a h (Some x) (Some r) dt), r.
      split; [constructor|]. left. auto.
    + destruct IH as (p & sib & Hsub & Hcase); [discriminate|].
      exists p, sib. split; [now apply Sub_left|]. exact Hcase.
  - destruct s as [|s1 s'].
    + apply path_nil in Hp as ->.
      exists (MkNode a h (Some l) (Some x) dt), l.
      split; [constructor|]. right. auto.
    + destruct IH as (p & sib & Hsub & Hcase); [discriminate|].
      exists p, sib. split; [now apply Sub_right|]. exact Hcase.
Qed.

(* ================================================================== *)
(** ** Arithmetic of the number of levels *)
(* ================================================================== *)

(** Halving a level, rounding up, removes one from the rounded-up binary
    logarithm. *)
Lemma log2_up_halve n m :
  2 <= n -> (2 * m = n \/ 2 * m = S n) ->
  Nat.log2_up n = S (Nat.log2_up m).
Proof.
  intros Hn Hm.
  destruct (Nat.eq_dec m 1) as [-> | Hm1].
  - assert (n = 2) as -> by lia. reflexivity.
  - assert (1 < m) as Hlt by lia.
    pose proof (Nat.log2_up_pos _ Hlt) as Hpos.
    pose proof (Nat.log2_up_spec _ Hlt) as [Hlo Hhi].
    destruct (Nat.log2_up m) as [|b] eqn:Eb; [lia|].
    apply Nat.log2_up_unique; [lia|].
    simpl Nat.pred in *.
    rewrite !Nat.pow_succ_r' in *. lia.
Qed.

Lemma list_pair_ind (A : Type) (P : list A -> Prop) :
  P [] -> (forall x, P [x]) -> (forall x y l, P l -> P (x :: y :: l)) ->
  forall l, P l.
Proof.
  intros Hnil Hone Hpair l.
  assert (P l /\ forall x, P (x :: l)) as [H _]; [|exact H].
  induction l as [|y l [IH1 IH2]]; split; auto.
Qed.

(* ================================================================== *)
(** ** One level of the reduction *)
(* ================================================================== *)

Section Levels.
Variable d : list byte -> list byte.

Lemma ls_mono nodes st next st' :
  LevelStep d nodes st next st' -> st <= st'.
Proof. induction 1; lia. Qed.

Lemma ls_length nodes st next st' :
  LevelStep d nodes st next st' ->
  2 * length next = length nodes \/ 2 * length next = S (length nodes).
Proof. induction 1; simpl in *; lia. Qed.

Lemma ls_wf nodes st next st' :
  LevelStep d nodes st next st' ->
  Forall (WellFormed d) nodes -> Forall (WellFormed d) next.
Proof.
  induction 1 as [st | x st | x y rest st next st' _ IH]; intro Hwf.
  - constructor.
  - inversion Hwf as [|? ? Hx _]; subst.
    constructor; [|constructor].
    refine (@WF_pair d (S st) x (MkNode st (Node.hash x) None None None)
                     None Hx _).
    apply WF_leaf.
  - inversion Hwf as [|? ? Hx Hrest]; subst.
    inversion Hrest as [|? ? Hy Hrest']; subst.
    constructor; [now constructor | now apply IH].
Qed.

Lemma height_pair a h l r dt :
  height (MkNode a h (Some l) (Some r) dt)
  = S (Nat.max (height l) (height r)).
Proof. reflexivity. Qed.

Lemma ls_height j nodes st next st' :
  LevelStep d nodes st next st' ->
  Forall (fun t => height t = j) nodes ->
  Forall (fun t => height t = S j) next.
Proof.
  induction 1 as [st | x st | x y rest st next st' _ IH]; intro Hh.
  - constructor.
  - inversion Hh as [|? ? Hx _]; subst.
    constructor; [|constructor].
    rewrite height_pair. simpl (height (MkNode _ _ None None _)). lia.
  - inversion Hh as [|? ? Hx Hrest]; subst.
    inversion Hrest as [|? ? Hy Hrest']; subst.
    constructor; [|now apply IH].
    rewrite height_pair. lia.
Qed.

Lemma depth_pair B j a h l r dt :
  DepthIs B j l -> DepthIs B j r ->
  DepthIs B (S j) (MkNode a h (Some l) (Some r) dt).
Proof.
  intros Hl Hr target x s Hp Hlt.
  apply path_pair_inv in Hp as [(s0 & -> & Hp) | (s0 & -> & _ & Hp)];
    rewrite length_app; simpl.
  - rewrite (Hl _ _ _ Hp Hlt). lia.
  - rewrite (Hr _ _ _ Hp Hlt). lia.
Qed.

(** A node allocated at or after [B] constrains nothing. *)
Lemma depth_fresh B j a h dt :
  B <= a -> DepthIs B j (MkNode a h None None dt).
Proof.
  intros Hle target x s Hp Hlt.
  apply path_leaf_inv in Hp as [-> ->]. simpl in Hlt. lia.
Qed.

Lemma ls_depth B j nodes st next st' :
  LevelStep d nodes st next st' -> B <= st ->
  Forall (DepthIs B j) nodes -> Forall (DepthIs B (S j)) next.
Proof.
  induction 1 as [st | x st | x y rest st next st' _ IH]; intros Hb Hd.
  - constructor.
  - inversion Hd as [|? ? Hx _]; subst.
    constructor; [|constructor].
    apply depth_pair; [assumption | now apply depth_fresh].
  - inversion Hd as [|? ? Hx Hrest]; subst.
    inversion Hrest as [|? ? Hy Hrest']; subst.
    constructor; [now apply depth_pair | apply IH; [lia | assumption]].
Qed.

(** A pass keeps the childless nodes and appends the duplicate it made,
    if any, at an address taken during the pass. *)
Lemma ls_fringe nodes st next st' :
  LevelStep d nodes st next st' ->
  exists dups,
    flat_map fringe next = flat_map fringe nodes ++ dups
    /\ Forall (fun x => st <= Node.addr x < st') dups
    /\ NoDup (map Node.addr dups).
Proof.
  induction 1 as [st | x st | x y rest st next st' Hs IH].
  - exists []. repeat split; constructor.
  - exists [MkNode st (Node.hash x) None None None].
    split; [simpl; now rewrite !app_nil_r|].
    split; [repeat constructor; simpl; lia|].
    simpl. constructor; [intros [] | constructor].
  - destruct IH as (dups & Hf & Hb & Hn).
    exists dups. split; [|split; [|assumption]].
    + change (flat_map fringe (?n :: ?l))
        with (fringe n ++ flat_map fringe l).
      rewrite Hf. simpl. now rewrite !app_assoc.
    + eapply Forall_impl; [|exact Hb]. simpl. intros; lia.
Qed.

Lemma ls_inv L B j nodes st next st' :
  LevelStep d nodes st next st' ->
  LevelInv d L B j st nodes -> LevelInv d L B (S j) st' next.
Proof.
  intros Hs [Hwf Hh Hd Hb (dups0 & Hf0 & Hb0 & Hn0)].
  pose proof (ls_mono Hs) as Hmono.
  destruct (ls_fringe Hs) as (dups1 & Hf1 & Hb1 & Hn1).
  split.
  - eapply ls_wf; eassumption.
  - eapply ls_height; eassumption.
  - eapply ls_depth; eassumption.
  - lia.
  - exists (dups0 ++ dups1). split; [|split].
    + rewrite Hf1, Hf0. now rewrite app_assoc.
    + apply Forall_app. split.
      * eapply Forall_impl; [|exact Hb0]. simpl. intros; lia.
      * eapply Forall_impl; [|exact Hb1]. simpl. intros; lia.
    + rewrite map_app. apply NoDup_app; try assumption.
      intros a Ha0 Ha1.
      apply in_map_iff in Ha0 as (x0 & <- & Hx0).
      apply in_map_iff in Ha1 as (x1 & E & Hx1).
      rewrite Forall_forall in Hb0, Hb1.
      specialize (Hb0 _ Hx0). specialize (Hb1 _ Hx1). lia.
Qed.

End Levels.

(* ================================================================== *)
(** ** The construction when the platform digest is present *)
(* ================================================================== *)

Section WithCrypto.
Variable subtle : option (list byte -> list byte).
Variable d : list byte -> list byte.
Hypothesis Hc : subtle = Some d.

Lemma hash_ok data : hash subtle data = Ok (hexDigest d data).
Proof. unfold hash. rewrite Hc. reflexivity. Qed.

Lemma mapR_hash items :
  mapR (hash subtle) items = Ok (map (hexDigest d) items).
Proof.
  induction items as [|x items IH]; [reflexivity|].
  simpl. rewrite hash_ok, IH. reflexivity.
Qed.

Lemma verifyLoop_fold proof :
  forall c, verifyLoop subtle c proof = Ok (fold_left (spec_step d) proof c).
Proof.
  induction proof as [|step proof IH]; intro c; [reflexivity|].
  simpl. unfold spec_step at 2.
  destruct (direction step); rewrite hash_ok; simpl; apply IH.
Qed.

Lemma verifyProof_spec_eq data proof rootHash :
  verifyProof subtle data proof rootHash
  = Ok (spec_verifyProof d data proof rootHash).
Proof.
  unfold verifyProof, spec_verifyProof.
  rewrite hash_ok. simpl. rewrite verifyLoop_fold. reflexivity.
Qed.

(** Folding the steps of a path over the hash of the node it starts at
    gives the hash of the node it ends under. *)
Lemma path_fold target t x s :
  WellFormed d t -> PathTo target t x s ->
  fold_left (spec_step d) s (Node.hash x) = Node.hash t.
Proof.
  intros Hwf Hp. revert Hwf.
  induction Hp as [n Hl Hs | a h l r dt x s Hp IH | a h l r dt x s Ha Hp IH];
    intro Hwf.
  - reflexivity.
  - inversion Hwf; subst. rewrite fold_left_app. simpl.
    rewrite IH by assumption. reflexivity.
  - inversion Hwf; subst. rewrite fold_left_app. simpl.
    rewrite IH by assumption. reflexivity.
Qed.

Lemma pairLevel_one x st :
  pairLevel subtle [x] st
  = Ok ([MkNode (S st) (hexDigest d (Node.hash x ++ Node.hash x))
                (Some x) (Some (MkNode st (Node.hash x) None None None))
                None],
        S (S st)).
Proof.
  unfold pairLevel, bind, lift, ret, new_MerkleNode.
  rewrite hash_ok. reflexivity.
Qed.

Lemma pairLevel_pair x y rest st :
  pairLevel subtle (x :: y :: rest) st
  = match pairLevel subtle rest (S st) with
    | Ok (next, st') =>
        Ok (MkNode st (hexDigest d (Node.hash x ++ Node.hash y))
                   (Some x) (Some y) None :: next, st')
    | Throw e => Throw e
    end.
Proof.
  change (pairLevel subtle (x :: y :: rest) st)
    with (bind (ret y)
            (fun rnode =>
               bind (lift (hash subtle (Node.hash x ++ Node.hash rnode)))
                 (fun parentHash =>
                    bind (new_MerkleNode parentHash (Some x) (Some rnode) None)
                      (fun parent =>
                         bind (pairLevel subtle rest)
                           (fun nextLevel => ret (parent :: nextLevel)))))
            st).
  unfold bind, lift, ret, new_MerkleNode.
  rewrite hash_ok.
  destruct (pairLevel subtle rest (S st)) as [[next st']|e]; reflexivity.
Qed.

(** The loop computes a pass. *)
Lemma pairLevel_step nodes :
  forall st, exists next st',
    pairLevel subtle nodes st = Ok (next, st')
    /\ LevelStep d nodes st next st'.
Proof.
  induction nodes as [|x|x y rest IH] using list_pair_ind; intro st.
  - exists [], st. split; [reflexivity | constructor].
  - eexists _, _. split; [apply pairLevel_one | constructor].
  - destruct (IH (S st)) as (next & st' & E & Hs).
    eexists _, _. split; [rewrite pairLevel_pair, E; reflexivity|].
    now constructor.
Qed.

Lemma buildTree_rec_step fuel x y rest st :
  buildTree_rec subtle (S fuel) (x :: y :: rest) st
  = match pairLevel subtle (x :: y :: rest) st with
    | Ok (next, st') => buildTree_rec subtle fuel next st'
    | Throw e => Throw e
    end.
Proof. reflexivity. Qed.

(** With fuel for every level, the recursion returns a root over the same
    leaves, [log2_up] of the level length higher. *)
Lemma buildTree_rec_inv L B fuel :
  forall nodes st j,
    nodes <> [] -> length nodes <= S fuel ->
    LevelInv d L B j st nodes ->
    exists root st',
      buildTree_rec subtle fuel nodes st = Ok (root, st')
      /\ LevelInv d L B (j + Nat.log2_up (length nodes)) st' [root].
Proof.
  induction fuel as [|fuel IH]; intros nodes st j Hne Hlen Hinv.
  - destruct nodes as [|x [|y rest]]; [congruence| |simpl in Hlen; lia].
    exists x, st. split; [reflexivity|].
    simpl. now rewrite Nat.add_0_r.
  - destruct nodes as [|x [|y rest]]; [congruence| |].
    + exists x, st. split; [reflexivity|].
      simpl. now rewrite Nat.add_0_r.
    + destruct (pairLevel_step (x :: y :: rest) st)
        as (next & st1 & E & Hs).
      pose proof (ls_length Hs) as Hl.
      assert (next <> []) as Hne'.
      { intros ->. simpl in Hl. lia. }
      assert (length next <= S fuel) as Hlen'.
      { simpl in Hl, Hlen. lia. }
      destruct (IH next st1 (S j) Hne' Hlen' (ls_inv Hs Hinv))
        as (root & st' & E' & Hinv').
      exists root, st'. split.
      * rewrite buildTree_rec_step, E. exact E'.
      * rewrite (@log2_up_halve (length (x :: y :: rest)) (length next));
          [|simpl; lia|exact Hl].
        now rewrite Nat.add_succ_r.
Qed.

(** *** The leaves *)

Lemma mapM_leaves items :
  forall st,
    mapM (fun ih : string * string =>
            new_MerkleNode (snd ih) None None (Some (fst ih)))
         (combine items (map (hexDigest d) items)) st
    = Ok (leavesAt d st items, st + length items).
Proof.
  induction items as [|x items IH]; intro st.
  - simpl. unfold ret. now rewrite Nat.add_0_r.
  - simpl. unfold bind, new_MerkleNode at 1. rewrite IH.
    unfold ret. simpl. now rewrite Nat.add_succ_r.
Qed.

Lemma leavesAt_length items : forall st, length (leavesAt d st items) = length items.
Proof. induction items; intro st; simpl; auto. Qed.

Lemma leavesAt_nth items :
  forall st i item,
    nth_error items i = Some item ->
    nth_error (leavesAt d st items) i
    = Some (MkNode (st + i) (hexDigest d item) None None (Some item)).
Proof.
  induction items as [|x items IH]; intros st [|i] item E;
    try discriminate.
  - injection E as ->. simpl. now rewrite Nat.add_0_r.
  - simpl. rewrite (IH (S st) i item E). now rewrite Nat.add_succ_r.
Qed.

Lemma leavesAt_addr items :
  forall st, map Node.addr (leavesAt d st items) = seq st (length items).
Proof.
  induction items as [|x items IH]; intro st; [reflexivity|].
  simpl. now rewrite IH.
Qed.

Lemma leavesAt_fringe items :
  forall st, flat_map fringe (leavesAt d st items) = leavesAt d st items.
Proof.
  induction items as [|x items IH]; intro st; [reflexivity|].
  simpl. now rewrite IH.
Qed.

Lemma leavesAt_wf items :
  forall st, Forall (WellFormed d) (leavesAt d st items).
Proof.
  induction items; intro st; simpl; constructor; [apply WF_leaf | auto].
Qed.

Lemma leavesAt_height items :
  forall st, Forall (fun t => height t = 0) (leavesAt d st items).
Proof. induction items; intro st; simpl; constructor; auto. Qed.

Lemma leavesAt_depth B items :
  forall st, Forall (DepthIs B 0) (leavesAt d st items).
Proof.
  induction items as [|x items IH]; intro st; simpl; constructor; auto.
  intros target y s Hp _. now apply path_leaf_inv in Hp as [_ ->].
Qed.

Lemma leavesAt_inv items st :
  LevelInv d (leavesAt d st items) (st + length items) 0
           (st + length items) (leavesAt d st items).
Proof.
  split.
  - apply leavesAt_wf.
  - apply leavesAt_height.
  - apply leavesAt_depth.
  - lia.
  - exists []. rewrite leavesAt_fringe, app_nil_r.
    repeat split; constructor.
Qed.

(** [build] on a non-empty list, down to the call of [buildTree]. *)
Lemma build_unfold x items st :
  build subtle (x :: items) st
  = match buildTree subtle (leavesAt d st (x :: items))
            (st + length (x :: items)) with
    | Ok (root, st') =>
        Ok (MkTree (leavesAt d st (x :: items)) root
                   (fillLeafMap (leavesAt d st (x :: items))), st')
    | Throw e => Throw e
    end.
Proof.
  unfold build.
  change (Nat.eqb (length (x :: items)) 0) with false. cbv iota.
  unfold bind at 1. unfold lift. rewrite mapR_hash.
  unfold bind at 1. rewrite mapM_leaves.
  unfold bind, ret.
  destruct (buildTree subtle (leavesAt d st (x :: items))
              (st + length (x :: items))) as [[root st']|e]; reflexivity.
Qed.

(** [build] returns on every non-empty list, and the root satisfies the
    invariant of the last level. *)
Lemma build_inv items st :
  items <> [] ->
  exists root st',
    build subtle items st
    = Ok (MkTree (leavesAt d st items) root
                 (fillLeafMap (leavesAt d st items)), st')
    /\ LevelInv d (leavesAt d st items) (st + length items)
                (Nat.log2_up (length items)) st' [root].
Proof.
  intro Hne. destruct items as [|x items]; [congruence|].
  set (its := x :: items) in *.
  destruct (@buildTree_rec_inv (leavesAt d st its) (st + length its)
              (length (leavesAt d st its)) (leavesAt d st its)
              (st + length its) 0)
    as (root & st' & E & Hinv).
  - subst its. simpl. discriminate.
  - lia.
  - apply leavesAt_inv.
  - exists root, st'. split.
    + subst its. rewrite build_unfold. unfold buildTree. now rewrite E.
    + rewrite leavesAt_length in Hinv. exact Hinv.
Qed.

End WithCrypto.

(* ================================================================== *)
(** ** The tree [build] returns *)
(* ================================================================== *)

Lemma NoDup_map_eq (A B : Type) (f : A -> B) (l : list A) :
  NoDup (map f l) ->
  forall x y, In x l -> In y l -> f x = f y -> x = y.
Proof.
  induction l as [|a l IH]; intros Hn x y Hx Hy E; [contradiction|].
  simpl in Hn. inversion Hn as [|? ? Hnotin Hn']; subst.
  destruct Hx as [-> | Hx], Hy as [-> | Hy]; auto.
  - exfalso. apply Hnotin. rewrite E. now apply in_map.
  - exfalso. apply Hnotin. rewrite <- E. now apply in_map.
Qed.

Lemma wf_subnode d t p :
  WellFormed d t -> Subnode p t -> WellFormed d p.
Proof.
  intros Hwf Hs. induction Hs as [| a h l r dt Hs IH | a h l r dt Hs IH].
  - exact Hwf.
  - inversion Hwf; subst. auto.
  - inversion Hwf; subst. auto.
Qed.

Lemma wf_two_children d t : WellFormed d t -> TwoChildren t.
Proof.
  intros Hwf p Hs. pose proof (wf_subnode Hwf Hs) as Hp.
  inversion Hp; subst; simpl; eauto.
Qed.

Lemma wf_pair_hash d t p l r :
  WellFormed d t -> Subnode p t ->
  Node.left p = Some l -> Node.right p = Some r ->
  Node.hash p = hexDigest d (Node.hash l ++ Node.hash r).
Proof.
  intros Hwf Hs Hl Hr. pose proof (wf_subnode Hwf Hs) as Hp.
  inversion Hp; subst; simpl in *; congruence.
Qed.

Section Built.
Variable subtle : option (list byte -> list byte).
Variable d : list byte -> list byte.
Hypothesis Hc : subtle = Some d.

(** What the last level says of the root. *)
Lemma root_inv L B j st' rt :
  LevelInv d L B j st' [rt] ->
  WellFormed d rt /\ height rt = j /\ DepthIs B j rt
  /\ exists dups, fringe rt = L ++ dups
                  /\ Forall (fun x => B <= Node.addr x < st') dups
                  /\ NoDup (map Node.addr dups).
Proof.
  intros [Hwf Hh Hd Hb (dups & Hf & Hbd & Hn)].
  inversion Hwf; inversion Hh; inversion Hd; subst.
  repeat split; try assumption.
  exists dups. simpl in Hf. rewrite app_nil_r in Hf. auto.
Qed.

(** The childless nodes of the built tree are the leaves, in input order,
    then the duplicates, all of them distinct objects. *)
Lemma root_fringe_nodup items st j st' rt :
  LevelInv d (leavesAt d st items) (st + length items) j st' [rt] ->
  NoDup (map Node.addr (fringe rt))
  /\ forall x, In x (leavesAt d st items) -> In x (fringe rt).
Proof.
  intro Hinv. apply root_inv in Hinv as (_ & _ & _ & dups & Hf & Hb & Hn).
  rewrite Hf. split; [|intros; apply in_or_app; now left].
  rewrite map_app. apply NoDup_app; try assumption.
  - rewrite leavesAt_addr. apply seq_NoDup.
  - intros a Ha Hd. rewrite leavesAt_addr in Ha. apply in_seq in Ha.
    apply in_map_iff in Hd as (x & <- & Hx).
    rewrite Forall_forall in Hb. specialize (Hb _ Hx). lia.
Qed.

(** The proof of the leaf at index [i] is its path in the built tree. *)
Lemma build_proof items st i item :
  nth_error items i = Some item ->
  exists rt st' prf,
    let t := MkTree (leavesAt d st items) rt
                    (fillLeafMap (leavesAt d st items)) in
    let leaf := MkNode (st + i) (hexDigest d item) None None (Some item) in
    build subtle items st = Ok (t, st')
    /\ LevelInv d (leavesAt d st items) (st + length items)
                (Nat.log2_up (length items)) st' [rt]
    /\ nth_error (leaves t) i = Some leaf
    /\ getProof t (Z.of_nat i) = Ok prf
    /\ PathTo (Some leaf) rt leaf prf.
Proof.
  intro Hi.
  assert (i < length items) as Hlt by (apply nth_error_Some; congruence).
  assert (items <> []) as Hne by (intros ->; simpl in Hlt; lia).
  destruct (build_inv Hc st Hne) as (rt & st' & E & Hinv).
  pose proof (leavesAt_nth d items st i Hi) as Hleaf.
  set (leaf := MkNode (st + i) (hexDigest d item) None None (Some item))
    in *.
  pose proof (@root_fringe_nodup items st _ _ _ Hinv) as [Hnd Hsub].
  pose proof (@root_inv _ _ _ _ _ Hinv) as (Hwf & _).
  assert (In leaf (fringe rt)) as Hin
      by (apply Hsub; eapply nth_error_In; eassumption).
  assert (Node.same leaf (Some leaf) = true) as Hsame
      by (simpl; apply Nat.eqb_refl).
  destruct (traverse_path (Some leaf) Hwf)
    as [(x & s & Et & Hp) | [_ Habs]].
  - exists rt, st', s. cbv zeta.
    split; [exact E|]. split; [exact Hinv|]. split; [exact Hleaf|].
    split.
    + unfold getProof. simpl leaves. simpl root.
      rewrite leavesAt_length.
      replace (Z.of_nat i <? 0)%Z with false by (symmetry; apply Z.ltb_ge; lia).
      replace (Z.of_nat i >=? Z.of_nat (length items))%Z with false
        by (symmetry; rewrite Z.geb_leb; apply Z.leb_gt; lia).
      simpl orb. cbv iota. rewrite Nat2Z.id, Hleaf.
      unfold generateProof. rewrite Et. reflexivity.
    + destruct (path_found Hp) as (Hx & _ & Hs).
      simpl in Hs. apply Nat.eqb_eq in Hs.
      assert (x = leaf) as -> by (eapply NoDup_map_eq; eassumption).
      exact Hp.
  - specialize (Habs _ Hin). congruence.
Qed.

End Built.

(* ================================================================== *)
(** ** Properties of the specification *)
(* ================================================================== *)

Local Open Scope string_scope.

(** C1.  For every non-empty list of items and every index [i] below its
    length, [build] returns a tree, [getProof i] returns a proof, and
    [verifyProof] of [items[i]] with that proof against [getRootHash]
    returns [true]. *)
Theorem proof_of_leaf_verifies subtle d (items : list string) (i st : nat) :
  subtle = Some d -> i < length items ->
  exists t st' item prf,
    build subtle items st = Ok (t, st')
    /\ nth_error items i = Some item
    /\ getProof t (Z.of_nat i) = Ok prf
    /\ verifyProof subtle item prf (getRootHash t) = Ok true.
Proof.
  intros Hc Hlt.
  destruct (nth_error items i) as [item|] eqn:Hi;
    [|apply nth_error_None in Hi; lia].
  destruct (build_proof Hc items st i Hi)
    as (rt & st' & prf & E & Hinv & Hleaf & Hprf & Hpath).
  exists (MkTree (leavesAt d st items) rt (fillLeafMap (leavesAt d st items))),
    st', item, prf.
  split; [exact E|]. split; [reflexivity|]. split; [exact Hprf|].
  pose proof (@root_inv _ _ _ _ _ _ Hinv) as (Hwf & _).
  rewrite (verifyProof_spec_eq Hc). unfold spec_verifyProof, getRootHash.
  simpl root.
  change (hexDigest d item)
    with (Node.hash (MkNode (st + i) (hexDigest d item) None None (Some item))).
  rewrite (path_fold Hwf Hpath). now rewrite String.eqb_refl.
Qed.

Lemma proof_of_leaf_verifies_witness :
  webCrypto = Some SHA256.digest
  /\ 2 < length ["a"; "b"; "c"]
  /\ exists t st' item prf,
      build webCrypto ["a"; "b"; "c"] 0 = Ok (t, st')
      /\ nth_error ["a"; "b"; "c"] 2 = Some item
      /\ getProof t (Z.of_nat 2) = Ok prf
      /\ verifyProof webCrypto item prf (getRootHash t) = Ok true.
Proof.
  split; [reflexivity|]. split; [simpl; lia|].
  apply (@proof_of_leaf_verifies webCrypto SHA256.digest ["a"; "b"; "c"] 2 0);
    [reflexivity | simpl; lia].
Defined.

(** C3, as the code has it.  [verifyProof] hashes the data, folds the
    steps in order, with [hash(siblingHash + computed)] for a left sibling
    and [hash(computed + siblingHash)] for a right one, where the digests
    are hex strings, [+] writes them one after the other as text and
    [hash] is the hex string of the SHA-256 of the UTF-8 bytes of that
    text; it returns whether the result equals the root hash, and on a
    proof that does not match it returns [false] and does not throw. *)
Theorem verifyProof_folds subtle d data (proof : MerkleProof) rootHash :
  subtle = Some d ->
  verifyProof subtle data proof rootHash
  = Ok (spec_verifyProof d data proof rootHash)
  /\ (fold_left (spec_step d) proof (hexDigest d data) <> rootHash ->
      verifyProof subtle data proof rootHash = Ok false)
  /\ (forall c step,
        spec_step d c step
        = match direction step with
          | Left => hexDigest d (siblingHash step ++ c)
          | Right => hexDigest d (c ++ siblingHash step)
          end).
Proof.
  intro Hc. split; [now apply verifyProof_spec_eq|]. split; [|reflexivity].
  intro Hneq. rewrite (verifyProof_spec_eq Hc). unfold spec_verifyProof.
  apply String.eqb_neq in Hneq. now rewrite Hneq.
Qed.

Lemma verifyProof_folds_witness :
  webCrypto = Some SHA256.digest
  /\ verifyProof webCrypto "a" [Step "00" Left] "ff"
     = Ok (spec_verifyProof SHA256.digest "a" [Step "00" Left] "ff").
Proof.
  split; [reflexivity|].
  destruct (@verifyProof_folds webCrypto SHA256.digest "a"
              [Step "00" Left] "ff" eq_refl) as (H & _).
  exact H.
Defined.

(** C3 as stated fails: for the data "a", the one step made of the digest
    of "b" on the right, and as root the digest of the 64 raw bytes of the
    two digests, the fold over raw digest bytes accepts, and the code
    returns [false]. *)
Lemma verifyProof_not_raw_fold :
  let da := SHA256.digest (utf8 "a") in
  let db := SHA256.digest (utf8 "b") in
  let rt := SHA256.digest (da ++ db) in
  spec_raw_verifyProof SHA256.digest "a" [MkRawStep db Right] rt = true
  /\ toHex rt
     = "e5a01fee14e0ed5c48714f22180f25ad8365b53f9779f79dc4a3d7e93963f94a"
  /\ verifyProof webCrypto "a" [Step (toHex db) Right] (toHex rt) = Ok false.
Proof.
  cbv zeta. split; [vm_compute; reflexivity|].
  split; vm_compute; reflexivity.
Qed.

(** C7.  For a single item the root is the sole leaf itself, [buildTree]
    returns it without a pass (nothing is allocated or hashed),
    [getRootHash] is the digest of the item, [getProof 0] is empty, and
    [verifyProof] of the item with the empty proof returns [true]. *)
Theorem single_leaf_tree subtle d (item : string) (st : nat) :
  subtle = Some d ->
  let leaf := MkNode st (hexDigest d item) None None (Some item) in
  exists t,
    build subtle [item] st = Ok (t, S st)
    /\ leaves t = [leaf] /\ root t = leaf
    /\ (forall st0, buildTree subtle [leaf] st0 = Ok (leaf, st0))
    /\ getRootHash t = hexDigest d item
    /\ hash subtle item = Ok (getRootHash t)
    /\ getProof t 0 = Ok []
    /\ verifyProof subtle item [] (getRootHash t) = Ok true.
Proof.
  intros Hc leaf.
  exists (MkTree [leaf] leaf (fillLeafMap [leaf])).
  split.
  { rewrite (build_unfold Hc). simpl leavesAt. simpl length.
    unfold buildTree. simpl. unfold ret. now rewrite Nat.add_1_r. }
  split; [reflexivity|]. split; [reflexivity|]. split; [reflexivity|].
  split; [reflexivity|]. split; [now apply hash_ok|]. split.
  - reflexivity.
  - rewrite (verifyProof_spec_eq Hc). unfold spec_verifyProof, getRootHash.
    simpl. now rewrite String.eqb_refl.
Qed.

Lemma single_leaf_tree_witness :
  webCrypto = Some SHA256.digest
  /\ exists t, build webCrypto ["x"] 0 = Ok (t, 1)
               /\ getProof t 0 = Ok []
               /\ verifyProof webCrypto "x" [] (getRootHash t) = Ok true.
Proof.
  split; [reflexivity|].
  destruct (@single_leaf_tree webCrypto SHA256.digest "x" 0 eq_refl)
    as (t & E & _ & _ & _ & _ & _ & Hp & Hv).
  exists t. auto.
Defined.

(** C9.  For more than one item the built tree has height
    [ceil(log2(leafCount))]. *)
Theorem height_log2_up subtle d (items : list string) (st : nat) :
  subtle = Some d -> 1 < length items ->
  exists t st',
    build subtle items st = Ok (t, st')
    /\ height (root t) = Nat.log2_up (length items).
Proof.
  intros Hc Hlen.
  assert (items <> []) as Hne by (intros ->; simpl in Hlen; lia).
  destruct (build_inv Hc st Hne) as (rt & st' & E & Hinv).
  eexists _, st'. split; [exact E|].
  now pose proof (@root_inv _ _ _ _ _ _ Hinv) as (_ & Hh & _).
Qed.

Lemma height_log2_up_witness :
  webCrypto = Some SHA256.digest
  /\ 1 < length ["a"; "b"; "c"; "d"; "e"]
  /\ exists t st',
      build webCrypto ["a"; "b"; "c"; "d"; "e"] 0 = Ok (t, st')
      /\ height (root t) = 3.
Proof.
  split; [reflexivity|]. split; [simpl; lia|].
  apply (@height_log2_up webCrypto SHA256.digest
           ["a"; "b"; "c"; "d"; "e"] 0); [reflexivity | simpl; lia].
Defined.

(** C10.  All membership proofs of a tree have the same length: none for
    one item, [ceil(log2 n)] for [n > 1] items. *)
Theorem proof_length_uniform subtle d (items : list string) (i st : nat) :
  subtle = Some d -> i < length items ->
  exists t st' prf,
    build subtle items st = Ok (t, st')
    /\ getProof t (Z.of_nat i) = Ok prf
    /\ length prf = (if Nat.eqb (length items) 1 then 0
                     else Nat.log2_up (length items)).
Proof.
  intros Hc Hlt.
  destruct (nth_error items i) as [item|] eqn:Hi;
    [|apply nth_error_None in Hi; lia].
  destruct (build_proof Hc items st i Hi)
    as (rt & st' & prf & E & Hinv & Hleaf & Hprf & Hpath).
  eexists _, st', prf. split; [exact E|]. split; [exact Hprf|].
  pose proof (@root_inv _ _ _ _ _ _ Hinv) as (_ & _ & Hd & _).
  rewrite (Hd _ _ _ Hpath) by (simpl; lia).
  destruct (Nat.eqb_spec (length items) 1) as [-> | _]; reflexivity.
Qed.

Lemma proof_length_uniform_witness :
  webCrypto = Some SHA256.digest
  /\ 4 < length ["a"; "b"; "c"; "d"; "e"]
  /\ exists t st' prf,
      build webCrypto ["a"; "b"; "c"; "d"; "e"] 0 = Ok (t, st')
      /\ getProof t (Z.of_nat 4) = Ok prf
      /\ length prf = 3.
Proof.
  split; [reflexivity|]. split; [simpl; lia|].
  apply (@proof_length_uniform webCrypto SHA256.digest
           ["a"; "b"; "c"; "d"; "e"] 4 0); [reflexivity | simpl; lia].
Defined.

(** C2, as the code has it.  Every node of the built tree that has
    children carries the digest of the UTF-8 bytes of its two children's
    hex digest strings written one after the other, left first, with no
    separator; for the items "a" and "b" the root hash is
    [hex(sha256(utf8(hex(sha256 "a") + hex(sha256 "b"))))]. *)
Theorem parent_hash_of_hex_concat subtle d (items : list string) (st : nat) :
  subtle = Some d -> items <> [] ->
  (exists t st',
      build subtle items st = Ok (t, st')
      /\ forall p l r,
          Subnode p (root t) ->
          Node.left p = Some l -> Node.right p = Some r ->
          Node.hash p = toHex (d (utf8 (Node.hash l ++ Node.hash r))))
  /\ (exists t st',
         build subtle ["a"; "b"] st = Ok (t, st')
         /\ getRootHash t
            = toHex (d (utf8 (toHex (d (utf8 "a")) ++ toHex (d (utf8 "b")))))).
Proof.
  intros Hc Hne. split.
  - destruct (build_inv Hc st Hne) as (rt & st' & E & Hinv).
    eexists _, st'. split; [exact E|].
    pose proof (@root_inv _ _ _ _ _ _ Hinv) as (Hwf & _).
    intros p l r Hs Hl Hr. exact (wf_pair_hash Hwf Hs Hl Hr).
  - eexists _, _. split.
    + rewrite (build_unfold Hc). unfold buildTree. simpl leavesAt.
      simpl length. rewrite (buildTree_rec_step subtle).
      rewrite (pairLevel_pair Hc). reflexivity.
    + reflexivity.
Qed.

Lemma parent_hash_of_hex_concat_witness :
  webCrypto = Some SHA256.digest
  /\ ["a"; "b"; "c"] <> []
  /\ exists t st',
      build webCrypto ["a"; "b"] 0 = Ok (t, st')
      /\ getRootHash t
         = toHex (SHA256.digest
                    (utf8 (toHex (SHA256.digest (utf8 "a"))
                           ++ toHex (SHA256.digest (utf8 "b"))))).
Proof.
  split; [reflexivity|]. split; [discriminate|].
  destruct (@parent_hash_of_hex_concat webCrypto SHA256.digest
              ["a"; "b"; "c"] 0 eq_refl) as (_ & H); [discriminate|].
  exact H.
Defined.

(** C2 as stated fails: for the items "a" and "b" the root hash is not the
    digest of the 64 raw bytes of the two leaf digests. *)
Lemma parent_hash_not_raw_concat :
  exists t st',
    build webCrypto ["a"; "b"] 0 = Ok (t, st')
    /\ getRootHash t
       = "62af5c3cb8da3e4f25061e829ebeea5c7513c54949115b1acc225930a90154da"
    /\ toHex (SHA256.digest (SHA256.digest (utf8 "a")
                              ++ SHA256.digest (utf8 "b")))
       = "e5a01fee14e0ed5c48714f22180f25ad8365b53f9779f79dc4a3d7e93963f94a"
    /\ getRootHash t
       <> toHex (SHA256.digest (SHA256.digest (utf8 "a")
                                 ++ SHA256.digest (utf8 "b"))).
Proof.
  destruct (build webCrypto ["a"; "b"] 0) as [[t st']|e] eqn:E;
    vm_compute in E; [|discriminate].
  injection E as <- <-.
  eexists _, _. split; [reflexivity|].
  split; [vm_compute; reflexivity|].
  split; [vm_compute; reflexivity|].
  vm_compute. discriminate.
Qed.

(** C4.  [build] throws the empty-input error exactly on the empty list,
    and [getProof] throws the index error exactly when the index is
    negative or not below the number of leaves. *)
Theorem errors_exactly subtle (items : list string) (st : nat)
    (t : MerkleTree) (index : Z) :
  (build subtle items st = Throw EmptyInput <-> items = [])
  /\ (getProof t index = Throw IndexOutOfRange
      <-> (index < 0 \/ index >= Z.of_nat (length (leaves t)))%Z)
  /\ build subtle [] st = Throw EmptyInput
  /\ getProof t (-1) = Throw IndexOutOfRange
  /\ getProof t (Z.of_nat (length (leaves t))) = Throw IndexOutOfRange.
Proof.
  assert (forall i, (i < 0 \/ i >= Z.of_nat (length (leaves t)))%Z ->
                    getProof t i = Throw IndexOutOfRange) as Hout.
  { intros i Hi. unfold getProof.
    destruct (Z.ltb_spec i 0) as [|Hge]; [reflexivity|].
    destruct Hi as [|Hi]; [lia|].
    rewrite Z.geb_leb.
    destruct (Z.leb_spec (Z.of_nat (length (leaves t))) i); [reflexivity|lia]. }
  split; [|split; [|split; [reflexivity|split; apply Hout; lia]]].
  - split; [|intros ->; reflexivity].
    destruct items as [|x items]; [reflexivity|]. intro E. exfalso.
    destruct subtle as [d|].
    + destruct (@build_inv (Some d) d eq_refl (x :: items) st)
        as (rt & st' & E' & _); [discriminate|]. congruence.
    + discriminate E.
  - split; [|apply Hout].
    unfold getProof.
    destruct (Z.ltb_spec index 0) as [|Hge]; [intros; lia|].
    rewrite Z.geb_leb.
    destruct (Z.leb_spec (Z.of_nat (length (leaves t))) index);
      [intros; lia|].
    simpl orb. cbv iota. unfold generateProof.
    destruct (traverse _ (root t) []) as [[b s]|e] eqn:Et; simpl;
      [discriminate|].
    apply traverse_throw in Et. congruence.
Qed.

(** The loop on a level of odd length: the last node is paired with a
    node made in this pass that has its hash and nothing else. *)
Lemma pairLevel_odd subtle d (pre : list MerkleNode) (x : MerkleNode) :
  subtle = Some d ->
  Nat.even (length pre) = true ->
  forall st, exists next parent dup st',
    pairLevel subtle (pre ++ [x])%list st = Ok ((next ++ [parent])%list, st')
    /\ Node.left parent = Some x /\ Node.right parent = Some dup
    /\ Node.hash dup = Node.hash x
    /\ Node.left dup = None /\ Node.right dup = None /\ Node.data dup = None
    /\ st <= Node.addr dup < st'.
Proof.
  intro Hc.
  induction pre as [|y|y z pre IH] using list_pair_ind; intros Hev st.
  - exists [], (MkNode (S st) (hexDigest d (Node.hash x ++ Node.hash x))
                       (Some x) (Some (MkNode st (Node.hash x) None None None))
                       None),
      (MkNode st (Node.hash x) None None None), (S (S st)).
    split; [apply (pairLevel_one Hc)|]. simpl. repeat split; lia.
  - discriminate.
  - destruct (IH Hev (S st))
      as (next & parent & dup & st' & E & Hl & Hr & Hh & Hdl & Hdr & Hdd & Hb).
    exists (MkNode st (hexDigest d (Node.hash y ++ Node.hash z))
                   (Some y) (Some z) None :: next), parent, dup, st'.
    split.
    + change ((y :: z :: pre) ++ [x])%list with (y :: z :: (pre ++ [x]))%list.
      rewrite (pairLevel_pair Hc), E. reflexivity.
    + repeat split; try assumption; lia.
Qed.

(** Decides the address comparisons met while a traversal is unfolded. *)
Ltac decide_eqb :=
  repeat match goal with
         | |- context [Nat.eqb ?a ?b] =>
             first
               [ replace (Nat.eqb a b) with true
                   by (symmetry; apply Nat.eqb_eq; lia)
               | replace (Nat.eqb a b) with false
                   by (symmetry; apply Nat.eqb_neq; lia) ]
         end.

(** C5.  On a level of odd length the last node [x] is paired with a new
    node that carries the hash of [x], no children and no data, allocated
    during that pass; in a built tree all childless nodes, leaves and
    duplicates alike, are distinct objects; and for the items "a", "b",
    "c" the proof of index 2 starts with the digest of "c" on the right. *)
Theorem odd_level_duplicate subtle d (pre : list MerkleNode) (x : MerkleNode)
    (items : list string) (st : nat) :
  subtle = Some d -> Nat.even (length pre) = true -> items <> [] ->
  (exists next parent dup st',
      pairLevel subtle (pre ++ [x])%list st = Ok ((next ++ [parent])%list, st')
      /\ Node.left parent = Some x /\ Node.right parent = Some dup
      /\ Node.hash dup = Node.hash x
      /\ Node.left dup = None /\ Node.right dup = None
      /\ Node.data dup = None
      /\ st <= Node.addr dup < st')
  /\ (exists t st',
         build subtle items st = Ok (t, st')
         /\ NoDup (map Node.addr (fringe (root t))))
  /\ (exists t st' rest,
         build subtle ["a"; "b"; "c"] st = Ok (t, st')
         /\ getProof t 2 = Ok (Step (hexDigest d "c") Right :: rest)).
Proof.
  intros Hc Hev Hne. split; [now apply (pairLevel_odd (d:=d))|]. split.
  - destruct (build_inv Hc st Hne) as (rt & st' & E & Hinv).
    eexists _, st'. split; [exact E|].
    now destruct (@root_fringe_nodup d items st _ _ _ Hinv).
  - eexists _, _, _. split.
    + rewrite (build_unfold Hc). unfold buildTree. simpl leavesAt.
      simpl length. rewrite (buildTree_rec_step subtle).
      rewrite (pairLevel_pair Hc), (pairLevel_one Hc).
      rewrite (buildTree_rec_step subtle).
      rewrite (pairLevel_pair Hc). reflexivity.
    + unfold getProof, generateProof. simpl leaves. simpl root.
      change ((2 <? 0)%Z || (2 >=? Z.of_nat (length _))%Z) with false.
      cbv iota. simpl nth_error.
      repeat (rewrite ?traverse_pair, ?traverse_leaf; simpl Node.same;
              decide_eqb; cbv iota).
      reflexivity.
Qed.

Lemma odd_level_duplicate_witness :
  webCrypto = Some SHA256.digest
  /\ Nat.even (length (@nil MerkleNode)) = true
  /\ ["a"; "b"; "c"] <> []
  /\ exists t st' rest,
      build webCrypto ["a"; "b"; "c"] 0 = Ok (t, st')
      /\ getProof t 2 = Ok (Step (hexDigest SHA256.digest "c") Right :: rest).
Proof.
  split; [reflexivity|]. split; [reflexivity|]. split; [discriminate|].
  destruct (@odd_level_duplicate webCrypto SHA256.digest []
              (MkNode 0 "" None None None) ["a"; "b"; "c"] 0 eq_refl eq_refl)
    as (_ & _ & H); [discriminate|].
  exact H.
Defined.

(** Where a non-empty path ends: at the two children of [t], with the
    step for the child the target is not under. *)
Lemma path_last target t x s :
  PathTo target t x s -> s <> [] ->
  exists l r s0,
    Node.left t = Some l /\ Node.right t = Some r
    /\ ((In x (fringe l) /\ s = (s0 ++ [Step (Node.hash r) Right])%list)
        \/ (In x (fringe r) /\ s = (s0 ++ [Step (Node.hash l) Left])%list)).
Proof.
  destruct 1 as [n Hl Hs | a h l r dt x s Hp | a h l r dt x s Ha Hp];
    intro Hne.
  - congruence.
  - exists l, r, s. simpl. repeat split.
    left. split; [apply (path_found Hp) | reflexivity].
  - exists l, r, s. simpl. repeat split.
    right. split; [apply (path_found Hp) | reflexivity].
Qed.

(** C6.  The proof of a leaf is its path in the built tree: each step
    holds the hash of the other child at that level and the side that
    other child is on; with more than one item the first step is for the
    sibling of the leaf itself and the last for the child of the root the
    leaf is not under. *)
Theorem proof_steps_order subtle d (items : list string) (i st : nat) :
  subtle = Some d -> i < length items ->
  exists t st' leaf prf,
    build subtle items st = Ok (t, st')
    /\ nth_error (leaves t) i = Some leaf
    /\ getProof t (Z.of_nat i) = Ok prf
    /\ PathTo (Some leaf) (root t) leaf prf
    /\ (1 < length items ->
        exists p sib,
          Subnode p (root t)
          /\ ((Node.left p = Some leaf /\ Node.right p = Some sib
               /\ hd_error prf = Some (Step (Node.hash sib) Right))
              \/ (Node.left p = Some sib /\ Node.right p = Some leaf
                  /\ hd_error prf = Some (Step (Node.hash sib) Left))))
    /\ (1 < length items ->
        exists l r s0,
          Node.left (root t) = Some l /\ Node.right (root t) = Some r
          /\ ((In leaf (fringe l)
               /\ prf = (s0 ++ [Step (Node.hash r) Right])%list)
              \/ (In leaf (fringe r)
                  /\ prf = (s0 ++ [Step (Node.hash l) Left])%list))).
Proof.
  intros Hc Hlt.
  destruct (nth_error items i) as [item|] eqn:Hi;
    [|apply nth_error_None in Hi; lia].
  destruct (build_proof Hc items st i Hi)
    as (rt & st' & prf & E & Hinv & Hleaf & Hprf & Hpath).
  eexists _, st', _, prf.
  split; [exact E|]. split; [exact Hleaf|]. split; [exact Hprf|].
  split; [exact Hpath|].
  pose proof (@root_inv _ _ _ _ _ _ Hinv) as (_ & _ & Hd & _).
  assert (1 < length items -> prf <> []) as Hne.
  { intros Hn ->. specialize (Hd _ _ _ Hpath). simpl in Hd.
    pose proof (Nat.log2_up_pos _ Hn). lia. }
  split; intro Hn.
  - exact (path_first Hpath (Hne Hn)).
  - exact (path_last Hpath (Hne Hn)).
Qed.

Lemma proof_steps_order_witness :
  webCrypto = Some SHA256.digest
  /\ 1 < length ["a"; "b"]
  /\ exists t st' leaf prf,
      build webCrypto ["a"; "b"] 0 = Ok (t, st')
      /\ nth_error (leaves t) 1 = Some leaf
      /\ getProof t (Z.of_nat 1) = Ok prf
      /\ PathTo (Some leaf) (root t) leaf prf.
Proof.
  split; [reflexivity|]. split; [simpl; lia|].
  destruct (@proof_steps_order webCrypto SHA256.digest ["a"; "b"] 1 0 eq_refl)
    as (t & st' & leaf & prf & E & Hl & Hp & Hpath & _); [simpl; lia|].
  exists t, st', leaf, prf. auto.
Defined.

(** C8.  A traversal that reaches an internal node missing a child makes
    [generateProof] throw the malformed-tree error; in a built tree every
    node is childless or has both children, and [getProof] never throws
    that error. *)
Theorem malformed_unreachable subtle d (items : list string) (st : nat) :
  subtle = Some d -> items <> [] ->
  (forall target r n,
      Visits target r n -> MissingChild n ->
      generateProof r target = Throw MalformedTree)
  /\ exists t st',
      build subtle items st = Ok (t, st')
      /\ TwoChildren (root t)
      /\ forall index, getProof t index <> Throw MalformedTree.
Proof.
  intros Hc Hne. split.
  - intros target r n Hv Hm. unfold generateProof.
    now rewrite (traverse_visits_missing Hv Hm).
  - destruct (build_inv Hc st Hne) as (rt & st' & E & Hinv).
    eexists _, st'. split; [exact E|].
    pose proof (@root_inv _ _ _ _ _ _ Hinv) as (Hwf & _).
    split; [exact (wf_two_children Hwf)|].
    intro index. unfold getProof. simpl leaves. simpl root.
    destruct (_ || _); [discriminate|].
    unfold generateProof.
    destruct (traverse_path
                (nth_error (leavesAt d st items) (Z.to_nat index)) Hwf)
      as [(x & s & -> & _) | [-> _]]; discriminate.
Qed.

Lemma malformed_unreachable_witness :
  webCrypto = Some SHA256.digest
  /\ ["a"; "b"; "c"] <> []
  /\ exists t st',
      build webCrypto ["a"; "b"; "c"] 0 = Ok (t, st')
      /\ TwoChildren (root t)
      /\ forall index, getProof t index <> Throw MalformedTree.
Proof.
  split; [reflexivity|]. split; [discriminate|].
  destruct (@malformed_unreachable webCrypto SHA256.digest
              ["a"; "b"; "c"] 0 eq_refl) as (_ & H); [discriminate|].
  exact H.
Defined.

(* ================================================================== *)
(** ** Hex strings *)
(* ================================================================== *)

Lemma append_nil_r (s : string) : s ++ "" = s.
Proof. induction s; simpl; congruence. Qed.

Lemma toHex_cons b bs : toHex (b :: bs) = byteHex b ++ toHex bs.
Proof.
  unfold toHex. destruct bs as [|b' bs]; simpl.
  - fold (byteHex b). now rewrite append_nil_r.
  - reflexivity.
Qed.

(** Every byte is written as two lowercase hex digits that read back as the
    byte. *)
Lemma byteHex_digits b :
  exists c1 c2,
    byteHex b = String c1 (String c2 "")
    /\ isHexChar c1 = true /\ isHexChar c2 = true
    /\ (exists hi lo, unhexDigit c1 = Some hi /\ unhexDigit c2 = Some lo
                      /\ Byte.of_N (16 * hi + lo) = Some b).
Proof.
  destruct b;
    (eexists _, _; split; [vm_compute; reflexivity|];
     split; [reflexivity|]; split; [reflexivity|];
     eexists _, _; split; [reflexivity|]; split; reflexivity).
Qed.

Lemma toHex_length bs : String.length (toHex bs) = 2 * length bs.
Proof.
  induction bs as [|b bs IH]; [reflexivity|].
  rewrite toHex_cons.
  destruct (byteHex_digits b) as (c1 & c2 & -> & _).
  simpl. rewrite IH. lia.
Qed.

Lemma toHex_allHex bs : allHex (toHex bs) = true.
Proof.
  induction bs as [|b bs IH]; [reflexivity|].
  rewrite toHex_cons.
  destruct (byteHex_digits b) as (c1 & c2 & -> & H1 & H2 & _).
  simpl. now rewrite H1, H2, IH.
Qed.

Lemma fromHex_two c1 c2 rest :
  spec_fromHex (String c1 (String c2 rest))
  = match unhexDigit c1, unhexDigit c2, spec_fromHex rest with
    | Some hi, Some lo, Some bs =>
        match Byte.of_N (16 * hi + lo) with
        | Some b => Some (b :: bs)
        | None => None
        end
    | _, _, _ => None
    end.
Proof. reflexivity. Qed.

Lemma fromHex_toHex bs : spec_fromHex (toHex bs) = Some bs.
Proof.
  induction bs as [|b bs IH]; [reflexivity|].
  rewrite toHex_cons.
  destruct (byteHex_digits b)
    as (c1 & c2 & -> & _ & _ & hi & lo & E1 & E2 & Eb).
  change (String c1 (String c2 "") ++ toHex bs)
    with (String c1 (String c2 (toHex bs))).
  now rewrite fromHex_two, E1, E2, IH, Eb.
Qed.

Lemma toHex_inj a b : toHex a = toHex b -> a = b.
Proof.
  intro E. apply (f_equal spec_fromHex) in E.
  rewrite !fromHex_toHex in E. congruence.
Qed.

Lemma sha256_digest_length msg : length (SHA256.digest msg) = 32.
Proof.
  unfold SHA256.digest, SHA256.digestZ. rewrite length_map. cbv zeta.
  generalize (SHA256.blocks
                (length (SHA256.be_words
                           (length (SHA256.pad (map SHA256.Z_of_byte msg)))
                           (SHA256.pad (map SHA256.Z_of_byte msg))))
                SHA256.init
                (SHA256.be_words
                   (length (SHA256.pad (map SHA256.Z_of_byte msg)))
                   (SHA256.pad (map SHA256.Z_of_byte msg)))).
  intro h. reflexivity.
Qed.

(* ================================================================== *)
(** ** The map from leaf hash to leaves *)
(* ================================================================== *)

Lemma map_get_set_same k v m : map_get k (map_set k v m) = Some v.
Proof.
  induction m as [|[k' v'] m IH]; simpl.
  - now rewrite String.eqb_refl.
  - destruct (String.eqb k k') eqn:E; simpl.
    + now rewrite String.eqb_refl.
    + now rewrite E.
Qed.

Lemma map_get_set_other k k0 v m :
  k <> k0 -> map_get k (map_set k0 v m) = map_get k m.
Proof.
  intro Hne. apply String.eqb_neq in Hne.
  induction m as [|[k' v'] m IH]; simpl.
  - now rewrite Hne.
  - destruct (String.eqb k0 k') eqn:E; simpl.
    + apply String.eqb_eq in E. subst k'. now rewrite Hne.
    + destruct (String.eqb k k'); [reflexivity | exact IH].
Qed.

Lemma map_get_None k m : map_get k m = None <-> ~ In k (map fst m).
Proof.
  induction m as [|[k' v'] m IH]; simpl.
  - tauto.
  - destruct (String.eqb_spec k k') as [-> | Hne].
    + split; [discriminate | intro H; exfalso; apply H; now left].
    + rewrite IH. split; [intros H [E | Hin]; [congruence | tauto] | tauto].
Qed.

Lemma map_set_keys k v m x :
  In x (map fst (map_set k v m)) <-> x = k \/ In x (map fst m).
Proof.
  induction m as [|[k' v'] m IH]; simpl.
  - split; [intros [E | []]; auto | intros [E | []]; auto].
  - destruct (String.eqb_spec k k') as [-> | Hne]; simpl.
    + split; [intros [E | H]; auto | intros [E | [E | H]]; auto].
    + rewrite IH. tauto.
Qed.

Lemma map_set_nodup k v m :
  NoDup (map fst m) -> NoDup (map fst (map_set k v m)).
Proof.
  induction m as [|[k' v'] m IH]; simpl; intro Hn.
  - constructor; [intros [] | constructor].
  - inversion Hn as [|? ? Hnotin Hn']; subst.
    destruct (String.eqb_spec k k') as [-> | Hne]; simpl.
    + now constructor.
    + constructor; [|now apply IH].
      rewrite map_set_keys. intros [E | H]; [congruence | contradiction].
Qed.

Lemma fillLeafMap_fold ls : fillLeafMap ls = fold_left fillStep ls [].
Proof. reflexivity. Qed.

Lemma fill_group k ls :
  forall m,
    group k (fold_left fillStep ls m)
    = (group k m
       ++ filter (fun l => String.eqb (Node.hash l) k) ls)%list.
Proof.
  induction ls as [|leaf ls IH]; intro m; simpl.
  - now rewrite app_nil_r.
  - rewrite IH. unfold fillStep.
    destruct (String.eqb_spec (Node.hash leaf) k) as [E | Hne].
    + subst k. unfold group at 1. rewrite map_get_set_same.
      now rewrite <- app_assoc.
    + unfold group at 1. rewrite map_get_set_other by congruence.
      reflexivity.
Qed.

Lemma fill_keys k ls :
  forall m,
    In k (map fst (fold_left fillStep ls m))
    <-> In k (map fst m) \/ exists l, In l ls /\ Node.hash l = k.
Proof.
  induction ls as [|leaf ls IH]; intro m; simpl.
  - split; [auto | intros [H | (l & [] & _)]; exact H].
  - rewrite IH. unfold fillStep. rewrite map_set_keys. split.
    + intros [[E | H] | (l & Hl & E)]; eauto.
    + intros [H | (l & [E | Hl] & E')]; subst; eauto.
Qed.

Lemma fill_nodup ls :
  forall m, NoDup (map fst m) -> NoDup (map fst (fold_left fillStep ls m)).
Proof.
  induction ls as [|leaf ls IH]; intros m Hn; simpl; [exact Hn|].
  apply IH. now apply map_set_nodup.
Qed.

(** Looking a hash up in the filled map gives the leaves with that hash,
    in the order of the input. *)
Lemma fillLeafMap_get k ls :
  map_get k (fillLeafMap ls)
  = match filter (fun l => String.eqb (Node.hash l) k) ls with
    | [] => None
    | g => Some g
    end.
Proof.
  pose proof (fill_group k ls []) as Hg.
  pose proof (fill_keys k ls []) as Hk.
  rewrite <- fillLeafMap_fold in Hg, Hk. simpl in Hg, Hk.
  unfold group in Hg.
  destruct (map_get k (fillLeafMap ls)) as [a|] eqn:E.
  - subst a.
    destruct (filter _ ls) as [|x g] eqn:Ef; [|reflexivity].
    exfalso.
    assert (In k (map fst (fillLeafMap ls))) as Hin.
    { destruct (in_dec string_dec k (map fst (fillLeafMap ls))) as [H | H];
        [exact H|]. apply map_get_None in H. congruence. }
    apply Hk in Hin as [[] | (l & Hl & El)].
    assert (In l (filter (fun l => String.eqb (Node.hash l) k) ls)) as Hf.
    { apply filter_In. split; [exact Hl|]. now apply String.eqb_eq. }
    rewrite Ef in Hf. contradiction.
  - now rewrite <- Hg.
Qed.

(* ================================================================== *)
(** ** Invariants of the reduction, in general *)
(* ================================================================== *)

Section MoreLevels.
Variable subtle : option (list byte -> list byte).
Variable d : list byte -> list byte.
Hypothesis Hc : subtle = Some d.

Lemma levelStep_pairLevel nodes st next st' :
  LevelStep d nodes st next st' ->
  pairLevel subtle nodes st = Ok (next, st').
Proof.
  induction 1 as [st | x st | x y rest st next st' _ IH].
  - reflexivity.
  - apply (pairLevel_one Hc).
  - now rewrite (pairLevel_pair Hc), IH.
Qed.

(** Whatever every pass keeps holds of the root. *)
Lemma buildTree_rec_invariant (P : nat -> nat -> list MerkleNode -> Prop) :
  (forall j nodes st next st',
      2 <= length nodes -> LevelStep d nodes st next st' ->
      P j st nodes -> P (S j) st' next) ->
  forall fuel nodes st j,
    nodes <> [] -> length nodes <= S fuel -> P j st nodes ->
    exists rt st',
      buildTree_rec subtle fuel nodes st = Ok (rt, st')
      /\ P (j + Nat.log2_up (length nodes)) st' [rt].
Proof.
  intro Hstep.
  induction fuel as [|fuel IH]; intros nodes st j Hne Hlen HP.
  - destruct nodes as [|x [|y rest]]; [congruence| |simpl in Hlen; lia].
    exists x, st. split; [reflexivity|].
    simpl. now rewrite Nat.add_0_r.
  - destruct nodes as [|x [|y rest]]; [congruence| |].
    + exists x, st. split; [reflexivity|].
      simpl. now rewrite Nat.add_0_r.
    + destruct (pairLevel_step Hc (x :: y :: rest) st)
        as (next & st1 & E & Hs).
      pose proof (ls_length Hs) as Hl.
      assert (next <> []) as Hne' by (intros ->; simpl in Hl; lia).
      assert (length next <= S fuel) as Hlen'
          by (simpl in Hl, Hlen; lia).
      assert (2 <= length (x :: y :: rest)) as H2 by (simpl; lia).
      destruct (IH next st1 (S j) Hne' Hlen' (Hstep _ _ _ _ _ H2 Hs HP))
        as (rt & st' & E' & HP').
      exists rt, st'. split.
      * rewrite (buildTree_rec_step subtle), E. exact E'.
      * rewrite (@log2_up_halve (length (x :: y :: rest)) (length next));
          [|simpl; lia|exact Hl].
        now rewrite Nat.add_succ_r.
Qed.

Lemma build_invariant (P : nat -> nat -> list MerkleNode -> Prop)
    (items : list string) (st : nat) :
  (forall j nodes st next st',
      2 <= length nodes -> LevelStep d nodes st next st' ->
      P j st nodes -> P (S j) st' next) ->
  items <> [] ->
  P 0 (st + length items) (leavesAt d st items) ->
  exists rt st',
    build subtle items st
    = Ok (MkTree (leavesAt d st items) rt
                 (fillLeafMap (leavesAt d st items)), st')
    /\ P (Nat.log2_up (length items)) st' [rt].
Proof.
  intros Hstep Hne HP. destruct items as [|x items]; [congruence|].
  set (its := x :: items) in *.
  destruct (@buildTree_rec_invariant P Hstep
              (length (leavesAt d st its)) (leavesAt d st its)
              (st + length its) 0)
    as (rt & st' & E & HP').
  - subst its. simpl. discriminate.
  - lia.
  - exact HP.
  - exists rt, st'. split.
    + subst its. rewrite (build_unfold Hc). unfold buildTree. now rewrite E.
    + rewrite leavesAt_length in HP'. exact HP'.
Qed.

End MoreLevels.

(* ================================================================== *)
(** ** Duplicates *)
(* ================================================================== *)

Lemma ls_dups d nodes st next st' :
  LevelStep d nodes st next st' ->
  exists dups,
    flat_map fringe next = (flat_map fringe nodes ++ dups)%list
    /\ length dups <= 1
    /\ (Nat.even (length nodes) = true -> dups = [])
    /\ Forall (fun x => Node.isLeaf x = true /\ Node.data x = None) dups.
Proof.
  induction 1 as [st | x st | x y rest st next st' Hs IH].
  - exists []. repeat split; auto.
  - exists [MkNode st (Node.hash x) None None None].
    split; [simpl; now rewrite !app_nil_r|].
    split; [simpl; lia|]. split; [discriminate|].
    constructor; [split; reflexivity | constructor].
  - destruct IH as (dups & Hf & Hl & Hev & Hd).
    exists dups. split; [|split; [exact Hl|split; [exact Hev|exact Hd]]].
    change (flat_map fringe (?n :: ?l))
      with (fringe n ++ flat_map fringe l)%list.
    rewrite Hf. simpl. now rewrite !app_assoc.
Qed.

Lemma pow2_even m : Nat.even (2 ^ S m) = true.
Proof. rewrite Nat.pow_succ_r'. apply Nat.even_even. Qed.

Lemma dups_step d L n0 j nodes st next st' :
  2 <= length nodes -> LevelStep d nodes st next st' ->
  DupsInv L n0 j nodes -> DupsInv L n0 (S j) next.
Proof.
  intros H2 Hs (dups0 & Hf0 & Hl0 & Hd0 & Hp0).
  destruct (ls_dups Hs) as (dups1 & Hf1 & Hl1 & Hev1 & Hd1).
  exists (dups0 ++ dups1)%list. split; [|split; [|split]].
  - rewrite Hf1, Hf0. now rewrite app_assoc.
  - rewrite length_app. lia.
  - apply Forall_app. now split.
  - intro Hpow. destruct (Hp0 Hpow) as (-> & m & Hm).
    destruct m as [|m]; [simpl in Hm; lia|].
    rewrite Hev1 by (rewrite Hm; apply pow2_even).
    split; [reflexivity|]. exists m.
    pose proof (ls_length Hs) as Hl.
    rewrite Hm, Nat.pow_succ_r' in Hl. lia.
Qed.

(* ================================================================== *)
(** ** Index bits *)
(* ================================================================== *)

Lemma spec_directions_S i j :
  spec_directions i (S j)
  = (spec_directions i j
     ++ [if Nat.testbit i j then Left else Right])%list.
Proof. unfold spec_directions. now rewrite seq_S, map_app. Qed.

Lemma div_pow2_S i j : i / 2 ^ S j = i / 2 ^ j / 2.
Proof. rewrite Nat.pow_succ_r', Nat.mul_comm. now rewrite Nat.Div0.div_div. Qed.

Lemma testbit_even_pos i j o : i / 2 ^ j = 2 * o -> Nat.testbit i j = false.
Proof.
  intro E. rewrite Nat.testbit_eqb, E.
  replace (2 * o) with (o * 2) by lia. now rewrite Nat.Div0.mod_mul.
Qed.

Lemma testbit_odd_pos i j o : i / 2 ^ j = 2 * o + 1 -> Nat.testbit i j = true.
Proof.
  intro E. rewrite Nat.testbit_eqb, E.
  replace (2 * o + 1) with (1 + o * 2) by lia.
  now rewrite Nat.Div0.mod_add.
Qed.

Lemma bitsAt_pair st0 B j o a h l r dt :
  BitsAt st0 B j (2 * o) l -> BitsAt st0 B j (2 * o + 1) r ->
  BitsAt st0 B (S j) o (MkNode a h (Some l) (Some r) dt).
Proof.
  intros Hl Hr target x s Hp Hlt.
  apply path_pair_inv in Hp as [(s0 & -> & Hp) | (s0 & -> & _ & Hp)].
  - destruct (Hl _ _ _ Hp Hlt) as [Epos Edir].
    rewrite div_pow2_S, Epos, spec_directions_S, map_app, Edir.
    rewrite (testbit_even_pos _ _ _ Epos). split; [|reflexivity].
    replace (2 * o) with (o * 2) by lia. now apply Nat.div_mul.
  - destruct (Hr _ _ _ Hp Hlt) as [Epos Edir].
    rewrite div_pow2_S, Epos, spec_directions_S, map_app, Edir.
    rewrite (testbit_odd_pos _ _ _ Epos). split; [|reflexivity].
    replace (2 * o + 1) with (1 + o * 2) by lia.
    rewrite Nat.div_add by lia. reflexivity.
Qed.

Lemma bitsAt_fresh st0 B j p a h dt :
  B <= a -> BitsAt st0 B j p (MkNode a h None None dt).
Proof.
  intros Hle target x s Hp Hlt.
  apply path_leaf_inv in Hp as [-> ->]. simpl in Hlt. lia.
Qed.

Lemma ls_bits d st0 B j nodes st next st' :
  LevelStep d nodes st next st' -> B <= st ->
  forall o,
    (forall p t, nth_error nodes p = Some t -> BitsAt st0 B j (2 * o + p) t) ->
    forall q t, nth_error next q = Some t -> BitsAt st0 B (S j) (o + q) t.
Proof.
  induction 1 as [st | x st | x y rest st next st' Hs IH];
    intros Hb o Hn q t Hq.
  - destruct q; discriminate.
  - destruct q as [|q]; [|destruct q; discriminate].
    injection Hq as <-. rewrite Nat.add_0_r.
    apply bitsAt_pair.
    + specialize (Hn 0 x eq_refl). now rewrite Nat.add_0_r in Hn.
    + now apply bitsAt_fresh.
  - destruct q as [|q].
    + injection Hq as <-. rewrite Nat.add_0_r.
      apply bitsAt_pair.
      * specialize (Hn 0 x eq_refl). now rewrite Nat.add_0_r in Hn.
      * exact (Hn 1 y eq_refl).
    + replace (o + S q) with (S o + q) by lia.
      apply (IH ltac:(lia) (S o)); [|exact Hq].
      intros p t' Hp. specialize (Hn (S (S p)) t' Hp).
      replace (2 * S o + p) with (2 * o + S (S p)) by lia. exact Hn.
Qed.

Lemma bits_step d st0 B j nodes st next st' :
  2 <= length nodes -> LevelStep d nodes st next st' ->
  (B <= st /\ BitsLevel st0 B j nodes) ->
  (B <= st' /\ BitsLevel st0 B (S j) next).
Proof.
  intros _ Hs [Hb Hn]. split; [pose proof (ls_mono Hs); lia|].
  intros q t Hq. exact (@ls_bits _ _ _ _ _ _ _ _ Hs Hb 0 Hn q t Hq).
Qed.

Lemma leavesAt_bits d items :
  forall st0 st B off,
    st = st0 + off ->
    forall p t,
      nth_error (leavesAt d st items) p = Some t ->
      BitsAt st0 B 0 (off + p) t.
Proof.
  induction items as [|x items IH]; intros st0 st B off -> p t Hp.
  - destruct p; discriminate.
  - destruct p as [|p]; simpl in Hp.
    + injection Hp as <-. intros target y s Hpath _.
      apply path_leaf_inv in Hpath as [-> ->]. cbn [Node.addr].
      change (2 ^ 0) with 1. rewrite Nat.div_1_r.
      split; [lia | reflexivity].
    + replace (off + S p) with (S off + p) by lia.
      apply (IH st0 (S (st0 + off)) B (S off)); [lia | exact Hp].
Qed.

(* ================================================================== *)
(** ** Moving a tree to other addresses *)
(* ================================================================== *)

Lemma shift_hash k n : Node.hash (shift k n) = Node.hash n.
Proof. now destruct n. Qed.

Lemma shift_isLeaf k n : Node.isLeaf (shift k n) = Node.isLeaf n.
Proof. now destruct n as [a h [l|] [r|] dt]. Qed.

Lemma eqb_add_r a b k : Nat.eqb (a + k) (b + k) = Nat.eqb a b.
Proof.
  destruct (Nat.eqb_spec a b) as [-> | Hne].
  - apply Nat.eqb_refl.
  - apply Nat.eqb_neq. lia.
Qed.

Lemma shift_same k n target :
  Node.same (shift k n) (option_map (shift k) target) = Node.same n target.
Proof.
  destruct target as [[b ? ? ? ?]|]; [|reflexivity].
  destruct n as [a ? ? ? ?]. simpl. apply eqb_add_r.
Qed.

(** A traversal does not see where the tree was allocated. *)
Lemma traverse_shift k target t :
  forall acc,
    traverse (option_map (shift k) target) (shift k t) acc
    = traverse target t acc.
Proof.
  induction t as [a h l r dt IHl IHr] using node_ind.
  destruct l as [l|], r as [r|]; simpl in IHl, IHr; intro acc;
    try reflexivity.
  - change (shift k (MkNode a h (Some l) (Some r) dt))
      with (MkNode (a + k) h (Some (shift k l)) (Some (shift k r)) dt).
    rewrite !traverse_pair, IHl, !shift_hash.
    destruct (traverse target l acc) as [[[|] s]|e]; try reflexivity.
    now rewrite IHr.
  - change (shift k (MkNode a h None None dt))
      with (MkNode (a + k) h None None dt).
    rewrite !traverse_leaf.
    now rewrite <- (shift_same k (MkNode a h None None dt) target).
Qed.

Lemma ls_shift d k nodes st next st' :
  LevelStep d nodes st next st' ->
  LevelStep d (map (shift k) nodes) (st + k) (map (shift k) next) (st' + k).
Proof.
  induction 1 as [st | x st | x y rest st next st' _ IH].
  - constructor.
  - simpl. rewrite <- !(shift_hash k x). apply LS_odd.
  - simpl. rewrite <- (shift_hash k x), <- (shift_hash k y).
    apply LS_pair. exact IH.
Qed.

Lemma leavesAt_shift d k items :
  forall st, leavesAt d (st + k) items = map (shift k) (leavesAt d st items).
Proof.
  induction items as [|x items IH]; intro st; [reflexivity|].
  simpl. f_equal. exact (IH (S st)).
Qed.

Section Shifted.
Variable subtle : option (list byte -> list byte).
Variable d : list byte -> list byte.
Hypothesis Hc : subtle = Some d.

Lemma buildTree_rec_shift k fuel :
  forall nodes st rt st',
    buildTree_rec subtle fuel nodes st = Ok (rt, st') ->
    buildTree_rec subtle fuel (map (shift k) nodes) (st + k)
    = Ok (shift k rt, st' + k).
Proof.
  induction fuel as [|fuel IH]; intros nodes st rt st' E.
  - destruct nodes as [|x [|y rest]]; try discriminate.
    injection E as <- <-. reflexivity.
  - destruct nodes as [|x [|y rest]].
    + change (buildTree_rec subtle (S fuel) [] st)
        with (buildTree_rec subtle fuel [] st) in E.
      change (buildTree_rec subtle (S fuel) (map (shift k) []) (st + k))
        with (buildTree_rec subtle fuel (map (shift k) []) (st + k)).
      now apply IH.
    + injection E as <- <-. reflexivity.
    + rewrite (buildTree_rec_step subtle) in E.
      destruct (pairLevel_step Hc (x :: y :: rest) st)
        as (next & st1 & Ep & Hs).
      rewrite Ep in E.
      change (map (shift k) (x :: y :: rest))
        with (shift k x :: shift k y :: map (shift k) rest).
      rewrite (buildTree_rec_step subtle).
      change (shift k x :: shift k y :: map (shift k) rest)
        with (map (shift k) (x :: y :: rest)).
      rewrite (levelStep_pairLevel Hc (ls_shift k Hs)).
      now apply IH.
Qed.

(** Built from address [k] on, the tree is the one built from address 0,
    moved. *)
Lemma build_shift items k :
  items <> [] ->
  exists t0 st0,
    build subtle items 0 = Ok (t0, st0)
    /\ build subtle items k = Ok (shiftTree k t0, st0 + k).
Proof.
  intro Hne.
  destruct (build_inv Hc 0 Hne) as (rt & st0 & E & _).
  eexists _, st0. split; [exact E|].
  destruct items as [|x items]; [congruence|].
  rewrite (build_unfold Hc) in E. unfold buildTree in E.
  destruct (buildTree_rec subtle _ _ _) as [[rt' st']|e] eqn:Eb;
    [|discriminate].
  injection E as <- <-.
  rewrite (build_unfold Hc). unfold buildTree.
  pose proof (leavesAt_shift d k (x :: items) 0) as Hl.
  change (0 + k) with k in Hl. rewrite Hl, length_map.
  replace (k + length (x :: items)) with (0 + length (x :: items) + k)
    by lia.
  rewrite (buildTree_rec_shift k _ _ _ Eb).
  reflexivity.
Qed.

Lemma getProof_shift k t index :
  getProof (shiftTree k t) index = getProof t index.
Proof.
  unfold getProof, shiftTree. simpl leaves. simpl root.
  rewrite length_map.
  destruct (_ || _); [reflexivity|].
  unfold generateProof. rewrite nth_error_map.
  now rewrite traverse_shift.
Qed.

End Shifted.

(* ================================================================== *)
(** ** Strings *)
(* ================================================================== *)

Lemma append_inj_l (s a b : string) : s ++ a = s ++ b -> a = b.
Proof. induction s; simpl; intro E; [exact E | injection E; auto]. Qed.

Lemma length_append (a b : string) :
  String.length (a ++ b) = String.length a + String.length b.
Proof. induction a; simpl; auto. Qed.

Lemma append_inj_r (s : string) :
  forall a b, a ++ s = b ++ s -> a = b.
Proof.
  induction a as [|c a IH]; intros [|c' b] E; simpl in E.
  - reflexivity.
  - apply (f_equal String.length) in E. simpl in E.
    rewrite length_append in E. lia.
  - apply (f_equal String.length) in E. simpl in E.
    rewrite length_append in E. lia.
  - injection E as -> E. f_equal. now apply IH.
Qed.

Lemma utf8_inj a b : utf8 a = utf8 b -> a = b.
Proof.
  unfold utf8. intro E. apply (f_equal string_of_list_byte) in E.
  now rewrite !string_of_list_byte_of_string in E.
Qed.

(* ================================================================== *)
(** ** Further properties of the hash tree *)
(* ================================================================== *)

(** X1.  The hex string [hash] writes has two lowercase hex characters per
    digest byte and reads back, two characters per byte, as exactly those
    bytes. *)
Theorem hex_round_trip (bs : list byte) :
  spec_fromHex (toHex bs) = Some bs
  /\ String.length (toHex bs) = 2 * length bs
  /\ allHex (toHex bs) = true.
Proof.
  split; [apply fromHex_toHex|]. split; [apply toHex_length|].
  apply toHex_allHex.
Qed.

(** X2.  With SHA-256 as the platform digest, [hash] returns a string of
    64 lowercase hex characters for every input. *)
Theorem hash_sha256_format (data : string) :
  exists h,
    hash webCrypto data = Ok h
    /\ String.length h = 64 /\ allHex h = true.
Proof.
  eexists. split; [reflexivity|]. split.
  - rewrite toHex_length, sha256_digest_length. reflexivity.
  - apply toHex_allHex.
Qed.

(** X3.  Two data items get the same hash exactly when the platform digest
    of their bytes is the same: writing the digest in hex loses nothing. *)
Theorem hash_eq_iff_digest_eq subtle d (x y : string) :
  subtle = Some d ->
  (hash subtle x = hash subtle y <-> d (utf8 x) = d (utf8 y)).
Proof.
  intro Hc. rewrite !(hash_ok Hc). unfold hexDigest. split.
  - intros [= E]. now apply toHex_inj.
  - intros ->. reflexivity.
Qed.

Lemma hash_eq_iff_digest_eq_witness :
  webCrypto = Some SHA256.digest
  /\ (hash webCrypto "a" = hash webCrypto "a"
      <-> SHA256.digest (utf8 "a") = SHA256.digest (utf8 "a")).
Proof.
  split; [reflexivity|].
  apply (@hash_eq_iff_digest_eq webCrypto SHA256.digest "a" "a").
  reflexivity.
Defined.

Lemma leavesAt_hashes d items :
  forall st, map Node.hash (leavesAt d st items) = map (hexDigest d) items.
Proof.
  induction items as [|x items IH]; intro st; [reflexivity|].
  simpl. now rewrite IH.
Qed.

Lemma leavesAt_data d items :
  forall st, map Node.data (leavesAt d st items) = map Some items.
Proof.
  induction items as [|x items IH]; intro st; [reflexivity|].
  simpl. now rewrite IH.
Qed.

(** X4.  [getLeafHashes] of a built tree lists [hash(items[i])] in input
    order, and the leaves hold the items themselves. *)
Theorem leaf_hashes_in_order subtle d (items : list string) (st : nat) :
  subtle = Some d -> items <> [] ->
  exists t st',
    build subtle items st = Ok (t, st')
    /\ mapR (hash subtle) items = Ok (getLeafHashes t)
    /\ map Node.data (leaves t) = map Some items
    /\ length (getLeafHashes t) = length items.
Proof.
  intros Hc Hne.
  destruct (build_inv Hc st Hne) as (rt & st' & E & _).
  eexists _, st'. split; [exact E|].
  unfold getLeafHashes. simpl leaves.
  rewrite leavesAt_hashes, leavesAt_data, (mapR_hash Hc), length_map. auto.
Qed.

Lemma leaf_hashes_in_order_witness :
  webCrypto = Some SHA256.digest
  /\ ["x"; "y"; "x"] <> []
  /\ exists t st',
      build webCrypto ["x"; "y"; "x"] 0 = Ok (t, st')
      /\ mapR (hash webCrypto) ["x"; "y"; "x"] = Ok (getLeafHashes t)
      /\ map Node.data (leaves t) = map Some ["x"; "y"; "x"]
      /\ length (getLeafHashes t) = length ["x"; "y"; "x"].
Proof.
  split; [reflexivity|]. split; [discriminate|].
  apply (@leaf_hashes_in_order webCrypto SHA256.digest ["x"; "y"; "x"] 0);
    [reflexivity | discriminate].
Defined.

(** X5.  In a built tree, looking a hash up in [leafMap] gives all the
    leaves with that hash, in input order, and nothing for a hash no leaf
    has; no key occurs twice. *)
Theorem leafMap_groups_by_hash subtle d (items : list string) (st : nat) :
  subtle = Some d -> items <> [] ->
  exists t st',
    build subtle items st = Ok (t, st')
    /\ (forall k,
          map_get k (leafMap t)
          = match filter (fun l => String.eqb (Node.hash l) k) (leaves t) with
            | [] => None
            | g => Some g
            end)
    /\ NoDup (map fst (leafMap t)).
Proof.
  intros Hc Hne.
  destruct (build_inv Hc st Hne) as (rt & st' & E & _).
  eexists _, st'. split; [exact E|]. simpl leafMap. simpl leaves. split.
  - intro k. apply fillLeafMap_get.
  - rewrite fillLeafMap_fold. apply fill_nodup. constructor.
Qed.

Lemma leafMap_groups_by_hash_witness :
  webCrypto = Some SHA256.digest
  /\ ["x"; "y"; "x"] <> []
  /\ exists t st',
      build webCrypto ["x"; "y"; "x"] 0 = Ok (t, st')
      /\ NoDup (map fst (leafMap t)).
Proof.
  split; [reflexivity|]. split; [discriminate|].
  destruct (@leafMap_groups_by_hash webCrypto SHA256.digest
              ["x"; "y"; "x"] 0 eq_refl) as (t & st' & E & _ & Hn);
    [discriminate|].
  exists t, st'. auto.
Defined.

(** X6.  The root hash, the leaf hashes and every proof depend on the
    items alone: two builds of the same list, whatever objects they
    allocate, agree on all three. *)
Theorem build_twice_agrees subtle d (items : list string) (st1 st2 : nat) :
  subtle = Some d -> items <> [] ->
  exists t1 s1 t2 s2,
    build subtle items st1 = Ok (t1, s1)
    /\ build subtle items st2 = Ok (t2, s2)
    /\ getRootHash t1 = getRootHash t2
    /\ getLeafHashes t1 = getLeafHashes t2
    /\ forall index, getProof t1 index = getProof t2 index.
Proof.
  intros Hc Hne.
  destruct (build_shift Hc st1 Hne) as (t0 & s0 & E0 & E1).
  destruct (build_shift Hc st2 Hne) as (t0' & s0' & E0' & E2).
  rewrite E0 in E0'. injection E0' as <- <-.
  eexists _, _, _, _. split; [exact E1|]. split; [exact E2|].
  split; [|split].
  - unfold getRootHash, shiftTree. simpl root. now rewrite !shift_hash.
  - unfold getLeafHashes, shiftTree. simpl leaves. rewrite !map_map.
    apply map_ext. intro n. now rewrite !shift_hash.
  - intro index. now rewrite !getProof_shift.
Qed.

Lemma build_twice_agrees_witness :
  webCrypto = Some SHA256.digest
  /\ ["a"; "b"; "c"] <> []
  /\ exists t1 s1 t2 s2,
      build webCrypto ["a"; "b"; "c"] 0 = Ok (t1, s1)
      /\ build webCrypto ["a"; "b"; "c"] 7 = Ok (t2, s2)
      /\ getRootHash t1 = getRootHash t2
      /\ getLeafHashes t1 = getLeafHashes t2
      /\ forall index, getProof t1 index = getProof t2 index.
Proof.
  split; [reflexivity|]. split; [discriminate|].
  apply (@build_twice_agrees webCrypto SHA256.digest ["a"; "b"; "c"] 0 7);
    [reflexivity | discriminate].
Defined.

Lemma spec_step_text d c (s : MerkleProofStep) :
  spec_step d c s = hexDigest d (stepText c s).
Proof. unfold spec_step, stepText. now destruct (direction s). Qed.

Lemma stepText_inj c c' (s : MerkleProofStep) :
  stepText c s = stepText c' s -> c = c'.
Proof.
  unfold stepText. destruct (direction s); intro E.
  - now apply append_inj_l in E.
  - now apply append_inj_r in E.
Qed.

Lemma last_cons_default (A : Type) (x : A) (l : list A) (a b : A) :
  last (x :: l) a = last (x :: l) b.
Proof.
  revert x. induction l as [|y l IH]; intro x; [reflexivity|].
  change (last (y :: l) a = last (y :: l) b). apply IH.
Qed.

(** The loop hashes the texts of [stepTexts], one after the other: what it
    returns is the hash of the last of them. *)
Lemma fold_last_text d prf :
  forall c,
    fold_left (spec_step d) prf c
    = last (map (hexDigest d) (stepTexts d c prf)) c.
Proof.
  induction prf as [|s prf IH]; intro c; [reflexivity|].
  simpl fold_left. rewrite IH, spec_step_text.
  simpl stepTexts. simpl map.
  destruct (map (hexDigest d)
              (stepTexts d (hexDigest d (stepText c s)) prf)) eqn:E;
    [reflexivity|].
  change (last (hexDigest d (stepText c s) :: s0 :: l) c)
    with (last (s0 :: l) c).
  apply last_cons_default.
Qed.

(** Two runs of the loop over the same steps that end on the same hash
    started from the same hash, or hashed two texts of different bytes to
    the same digest on the way. *)
Lemma chain_collision d prf :
  forall c c',
    fold_left (spec_step d) prf c = fold_left (spec_step d) prf c' ->
    c = c'
    \/ exists x y,
        In x (stepTexts d c prf) /\ In y (stepTexts d c' prf)
        /\ utf8 x <> utf8 y /\ d (utf8 x) = d (utf8 y).
Proof.
  induction prf as [|s prf IH]; intros c c' E; [now left|].
  simpl in E. rewrite !spec_step_text in E.
  destruct (IH _ _ E) as [Eh | (x & y & Hx & Hy & Hne & Hd)].
  - unfold hexDigest in Eh. apply toHex_inj in Eh.
    destruct (list_eq_dec Byte.byte_eq_dec
                (utf8 (stepText c s)) (utf8 (stepText c' s))) as [Eb | Hb].
    + left. apply utf8_inj in Eb. now apply stepText_inj in Eb.
    + right. exists (stepText c s), (stepText c' s).
      simpl. auto.
  - right. exists x, y. simpl. auto.
Qed.

(** The same from the data on: equal bytes, or a collision among the
    texts hashed. *)
Lemma fold_same_bytes_or_collision d (data data' : string) prf :
  fold_left (spec_step d) prf (hexDigest d data)
  = fold_left (spec_step d) prf (hexDigest d data') ->
  utf8 data = utf8 data'
  \/ exists x y,
      In x (hashedTexts d data prf) /\ In y (hashedTexts d data' prf)
      /\ utf8 x <> utf8 y /\ d (utf8 x) = d (utf8 y).
Proof.
  intro E.
  destruct (@chain_collision d prf (hexDigest d data) (hexDigest d data') E)
    as [Eh | (x & y & Hx & Hy & Hne & Hd)].
  - unfold hexDigest in Eh. apply toHex_inj in Eh.
    destruct (list_eq_dec Byte.byte_eq_dec (utf8 data) (utf8 data'))
      as [Eb | Hb]; [now left|].
    right. exists data, data'. unfold hashedTexts. simpl. auto.
  - right. exists x, y. unfold hashedTexts. simpl. auto.
Qed.

(** X7.  If two data items both verify with the same proof against the
    same root, then they have the same UTF-8 bytes, or the two runs hashed
    two texts of different bytes to the same digest: a collision of the
    platform digest, found among the texts the runs hashed. *)
Theorem same_proof_same_bytes_or_collision subtle d (data data' : string)
    (prf : MerkleProof) (rootHash : string) :
  subtle = Some d ->
  verifyProof subtle data prf rootHash = Ok true ->
  verifyProof subtle data' prf rootHash = Ok true ->
  utf8 data = utf8 data'
  \/ exists x y,
      In x (hashedTexts d data prf) /\ In y (hashedTexts d data' prf)
      /\ utf8 x <> utf8 y /\ d (utf8 x) = d (utf8 y).
Proof.
  intros Hc H1 H2.
  rewrite (verifyProof_spec_eq Hc) in H1, H2.
  unfold spec_verifyProof in H1, H2.
  injection H1 as H1. injection H2 as H2.
  apply String.eqb_eq in H1, H2.
  apply fold_same_bytes_or_collision. congruence.
Qed.

Lemma same_proof_same_bytes_or_collision_witness :
  let h := hexDigest SHA256.digest "c" in
  let rootHash := hexDigest SHA256.digest (h ++ h) in
  webCrypto = Some SHA256.digest
  /\ verifyProof webCrypto "c" [Step h Right] rootHash = Ok true
  /\ (utf8 "c" = utf8 "c"
      \/ exists x y,
          In x (hashedTexts SHA256.digest "c" [Step h Right])
          /\ In y (hashedTexts SHA256.digest "c" [Step h Right])
          /\ utf8 x <> utf8 y
          /\ SHA256.digest (utf8 x) = SHA256.digest (utf8 y)).
Proof.
  cbv zeta.
  assert (verifyProof webCrypto "c"
            [Step (hexDigest SHA256.digest "c") Right]
            (hexDigest SHA256.digest
               (hexDigest SHA256.digest "c" ++ hexDigest SHA256.digest "c"))
          = Ok true) as Hv by (vm_compute; reflexivity).
  split; [reflexivity|]. split; [exact Hv|].
  exact (@same_proof_same_bytes_or_collision webCrypto SHA256.digest
           "c" "c" [Step (hexDigest SHA256.digest "c") Right]
           (hexDigest SHA256.digest
              (hexDigest SHA256.digest "c" ++ hexDigest SHA256.digest "c"))
           eq_refl Hv Hv).
Defined.

(** X8.  Asked for a target that is no childless node of a built tree, an
    [undefined] one included, [generateProof] returns the empty proof and
    does not throw. *)
Theorem absent_target_empty_proof subtle d (items : list string) (st : nat) :
  subtle = Some d -> items <> [] ->
  exists t st',
    build subtle items st = Ok (t, st')
    /\ generateProof (root t) None = Ok []
    /\ forall x,
        ~ In (Node.addr x) (map Node.addr (fringe (root t))) ->
        generateProof (root t) (Some x) = Ok [].
Proof.
  intros Hc Hne.
  destruct (build_inv Hc st Hne) as (rt & st' & E & Hinv).
  eexists _, st'. split; [exact E|]. simpl root.
  pose proof (@root_inv _ _ _ _ _ _ Hinv) as (Hwf & _).
  assert (forall target,
             (forall y, In y (fringe rt) -> Node.same y target = false) ->
             generateProof rt target = Ok []) as Habs.
  { intros target Hno. unfold generateProof.
    destruct (traverse_path target Hwf) as [(x & s & _ & Hp) | [-> _]];
      [|reflexivity].
    destruct (path_found Hp) as (Hin & _ & Hs).
    rewrite (Hno _ Hin) in Hs. discriminate. }
  split.
  - apply Habs. reflexivity.
  - intros x Hx. apply Habs. intros y Hy. simpl.
    apply Nat.eqb_neq. intro Eq. apply Hx. rewrite <- Eq.
    now apply in_map.
Qed.

Lemma absent_target_empty_proof_witness :
  webCrypto = Some SHA256.digest
  /\ ["a"; "b"] <> []
  /\ exists t st',
      build webCrypto ["a"; "b"] 0 = Ok (t, st')
      /\ generateProof (root t) None = Ok [].
Proof.
  split; [reflexivity|]. split; [discriminate|].
  destruct (@absent_target_empty_proof webCrypto SHA256.digest
              ["a"; "b"] 0 eq_refl) as (t & st' & E & Hn & _);
    [discriminate|].
  exists t, st'. auto.
Defined.

(** X9.  Without the platform digest nothing is built or verified: [hash],
    [build] on a non-empty list and [verifyProof] all throw the
    missing-crypto error; with it, [verifyProof] always returns a
    boolean. *)
Theorem crypto_decides_failure subtle (x : string) (items : list string)
    (st : nat) (data : string) (prf : MerkleProof) (rootHash : string) :
  hash None data = Throw NoCrypto
  /\ build None (x :: items) st = Throw NoCrypto
  /\ verifyProof subtle data prf rootHash
     = match subtle with
       | Some d => Ok (spec_verifyProof d data prf rootHash)
       | None => Throw NoCrypto
       end.
Proof.
  split; [reflexivity|]. split; [reflexivity|].
  destruct subtle as [d|]; [|reflexivity].
  now apply verifyProof_spec_eq.
Qed.

(** X10.  The sides named by the proof of the leaf at index [i] are the
    binary digits of [i], lowest first: right where the digit is 0, left
    where it is 1. *)
Theorem proof_directions_are_index_bits subtle d (items : list string)
    (i st : nat) :
  subtle = Some d -> i < length items ->
  exists t st' prf,
    build subtle items st = Ok (t, st')
    /\ getProof t (Z.of_nat i) = Ok prf
    /\ map direction prf
       = map (fun b => if Nat.testbit i b then Left else Right)
             (seq 0 (Nat.log2_up (length items))).
Proof.
  intros Hc Hlt.
  destruct (nth_error items i) as [item|] eqn:Hi;
    [|apply nth_error_None in Hi; lia].
  destruct (build_proof Hc items st i Hi)
    as (rt & st' & prf & E & Hinv & Hleaf & Hprf & Hpath).
  assert (items <> []) as Hne by (intros ->; simpl in Hlt; lia).
  destruct (@build_invariant subtle d Hc
              (fun j s nodes =>
                 st + length items <= s
                 /\ BitsLevel st (st + length items) j nodes)
              items st)
    as (rt' & st'' & E' & _ & Hbits).
  - intros j nodes s next s' H2 Hs HP. exact (bits_step H2 Hs HP).
  - exact Hne.
  - split; [lia|]. intros p t Hp.
    exact (@leavesAt_bits d items st st (st + length items) 0
             (eq_sym (Nat.add_0_r st)) p t Hp).
  - rewrite E in E'. injection E' as <- <-.
    eexists _, st', prf. split; [exact E|]. split; [exact Hprf|].
    destruct (Hbits 0 rt eq_refl _ _ _ Hpath) as [_ Hdir];
      [simpl; lia|].
    rewrite Hdir. simpl Node.addr.
    now replace (st + i - st) with i by lia.
Qed.

Lemma proof_directions_are_index_bits_witness :
  webCrypto = Some SHA256.digest
  /\ 5 < length ["a"; "b"; "c"; "d"; "e"; "f"; "g"]
  /\ exists t st' prf,
      build webCrypto ["a"; "b"; "c"; "d"; "e"; "f"; "g"] 0 = Ok (t, st')
      /\ getProof t (Z.of_nat 5) = Ok prf
      /\ map direction prf = [Left; Right; Left].
Proof.
  split; [reflexivity|]. split; [simpl; lia|].
  apply (@proof_directions_are_index_bits webCrypto SHA256.digest
           ["a"; "b"; "c"; "d"; "e"; "f"; "g"] 5 0);
    [reflexivity | simpl; lia].
Defined.

(** X11.  The childless nodes of a built tree are the leaves, in input
    order, followed by the duplicates; there are at most
    [ceil(log2 n)] duplicates, none of them holds data, and there is none
    at all when the number of items is a power of two. *)
Theorem duplicates_bounded subtle d (items : list string) (st : nat) :
  subtle = Some d -> items <> [] ->
  exists t st' dups,
    build subtle items st = Ok (t, st')
    /\ fringe (root t) = (leaves t ++ dups)%list
    /\ length dups <= Nat.log2_up (length items)
    /\ Forall (fun x => Node.isLeaf x = true /\ Node.data x = None) dups
    /\ ((exists k, length items = 2 ^ k) -> dups = []).
Proof.
  intros Hc Hne.
  destruct (@build_invariant subtle d Hc
              (fun j s nodes =>
                 DupsInv (leavesAt d st items) (length items) j nodes)
              items st)
    as (rt & st' & E & dups & Hf & Hl & Hd & Hp).
  - intros j nodes s next s' H2 Hs HP. exact (dups_step H2 Hs HP).
  - exact Hne.
  - exists []. rewrite (leavesAt_fringe d), app_nil_r.
    split; [reflexivity|]. split; [simpl; lia|]. split; [constructor|].
    intros (k & Hk). split; [reflexivity|]. exists k.
    now rewrite leavesAt_length.
  - exists (MkTree (leavesAt d st items) rt
                   (fillLeafMap (leavesAt d st items))), st', dups.
    split; [exact E|]. simpl root. simpl leaves.
    simpl in Hf. rewrite app_nil_r in Hf.
    split; [exact Hf|]. split; [exact Hl|]. split; [exact Hd|].
    intro Hpow. now destruct (Hp Hpow).
Qed.

Lemma duplicates_bounded_witness :
  webCrypto = Some SHA256.digest
  /\ ["a"; "b"; "c"; "d"] <> []
  /\ exists t st' dups,
      build webCrypto ["a"; "b"; "c"; "d"] 0 = Ok (t, st')
      /\ fringe (root t) = (leaves t ++ dups)%list
      /\ length dups <= 2.
Proof.
  split; [reflexivity|]. split; [discriminate|].
  destruct (@duplicates_bounded webCrypto SHA256.digest
              ["a"; "b"; "c"; "d"] 0 eq_refl)
    as (t & st' & dups & E & Hf & Hl & _); [discriminate|].
  exists t, st', dups. auto.
Defined.

(* ================================================================== *)
(** ** Reading the text area *)
(* ================================================================== *)

Lemma noLF_cons c s : noLF (String c s) <-> c <> "010"%char /\ noLF s.
Proof.
  unfold noLF. simpl. split.
  - intro H. inversion H; subst. auto.
  - intros [H1 H2]. now constructor.
Qed.

Lemma split_nl_noLF s : noLF s -> App.split_nl s = [s].
Proof.
  induction s as [|c s IH]; intro H; [reflexivity|].
  apply noLF_cons in H as [Hc Hs]. simpl.
  destruct (Ascii.eqb_spec c "010"%char) as [E | _]; [contradiction|].
  now rewrite (IH Hs).
Qed.

Lemma split_nl_app x rest :
  noLF x ->
  App.split_nl (x ++ String "010" rest) = x :: App.split_nl rest.
Proof.
  induction x as [|c x IH]; intro H.
  - reflexivity.
  - apply noLF_cons in H as [Hc Hx]. simpl.
    destruct (Ascii.eqb_spec c "010"%char) as [E | _]; [contradiction|].
    now rewrite (IH Hx).
Qed.

Lemma split_join items :
  items <> [] -> Forall noLF items ->
  App.split_nl (App.join_nl items) = items.
Proof.
  induction items as [|x items IH]; intros Hne Hall; [congruence|].
  inversion Hall as [|? ? Hx Hrest]; subst.
  destruct items as [|y items].
  - simpl. now apply split_nl_noLF.
  - change (App.join_nl (x :: y :: items))
      with (x ++ String "010" (App.join_nl (y :: items))).
    rewrite (split_nl_app _ Hx). f_equal. apply IH; [discriminate | exact Hrest].
Qed.

Lemma split_nl_all_noLF s : Forall noLF (App.split_nl s).
Proof.
  induction s as [|c s IH]; simpl.
  - repeat constructor.
  - destruct (Ascii.eqb_spec c "010"%char) as [E | Hne].
    + constructor; [constructor | exact IH].
    + destruct (App.split_nl s) as [|h t].
      * constructor; [|constructor]. apply noLF_cons. split; [exact Hne|].
        constructor.
      * inversion IH; subst. constructor; [|assumption].
        apply noLF_cons. now split.
Qed.

(** What is dropped is a prefix: the rest is kept as it is. *)
Lemma dropStart_suffix n :
  forall l, length l <= n -> exists p, l = (p ++ App.dropStart l)%list.
Proof.
  induction n as [|n IH]; intros l Hlen.
  - destruct l; [|simpl in Hlen; lia]. now exists [].
  - destruct l as [|a l1]; [now exists []|].
    simpl in Hlen. simpl.
    destruct (App.ws1 (N_of_ascii a)).
    + destruct (IH l1 ltac:(lia)) as (p & Hp).
      exists (a :: p). simpl. now rewrite <- Hp.
    + destruct l1 as [|b l2]; [now exists []|]. simpl in Hlen.
      destruct (App.ws2 (N_of_ascii a) (N_of_ascii b)).
      * destruct (IH l2 ltac:(lia)) as (p & Hp).
        exists (a :: b :: p). simpl. now rewrite <- Hp.
      * destruct l2 as [|c l3]; [now exists []|]. simpl in Hlen.
        destruct (App.ws3 (N_of_ascii a) (N_of_ascii b) (N_of_ascii c)).
        -- destruct (IH l3 ltac:(lia)) as (p & Hp).
           exists (a :: b :: c :: p). simpl. now rewrite <- Hp.
        -- now exists [].
Qed.

Lemma dropEndRev_suffix n :
  forall l, length l <= n -> exists p, l = (p ++ App.dropEndRev l)%list.
Proof.
  induction n as [|n IH]; intros l Hlen.
  - destruct l; [|simpl in Hlen; lia]. now exists [].
  - destruct l as [|c l1]; [now exists []|].
    simpl in Hlen. simpl.
    destruct (App.ws1 (N_of_ascii c)).
    + destruct (IH l1 ltac:(lia)) as (p & Hp).
      exists (c :: p). simpl. now rewrite <- Hp.
    + destruct l1 as [|b l2]; [now exists []|]. simpl in Hlen.
      destruct (App.ws2 (N_of_ascii b) (N_of_ascii c)).
      * destruct (IH l2 ltac:(lia)) as (p & Hp).
        exists (c :: b :: p). simpl. now rewrite <- Hp.
      * destruct l2 as [|a l3]; [now exists []|]. simpl in Hlen.
        destruct (App.ws3 (N_of_ascii a) (N_of_ascii b) (N_of_ascii c)).
        -- destruct (IH l3 ltac:(lia)) as (p & Hp).
           exists (c :: b :: a :: p). simpl. now rewrite <- Hp.
        -- now exists [].
Qed.

(** [trim] keeps a stretch of the string: a prefix and a suffix go. *)
Lemma trim_infix s :
  exists p q,
    list_ascii_of_string s
    = (p ++ list_ascii_of_string (App.trim s) ++ q)%list.
Proof.
  unfold App.trim. rewrite list_ascii_of_string_of_list_ascii.
  set (l := list_ascii_of_string s).
  destruct (@dropStart_suffix (length l) l (le_n _)) as (p & Hp).
  set (m := App.dropStart l) in *.
  destruct (@dropEndRev_suffix (length (rev m)) (rev m) (le_n _)) as (q & Hq).
  exists p, (rev q).
  rewrite <- rev_app_distr, <- Hq, rev_involutive. exact Hp.
Qed.

Lemma trim_noLF s : noLF s -> noLF (App.trim s).
Proof.
  unfold noLF. intro H.
  destruct (trim_infix s) as (p & q & E). rewrite E in H.
  apply Forall_app in H as [_ H]. now apply Forall_app in H as [H _].
Qed.

Lemma truthy_true s : App.truthy s = true <-> s <> "".
Proof.
  unfold App.truthy. destruct (String.eqb_spec s ""); split; intro H;
    try discriminate; try reflexivity; congruence.
Qed.

(* ================================================================== *)
(** ** Properties of the page *)
(* ================================================================== *)

(** X12.  Every item the page passes to [build] is non-empty, has no line
    feed in it, and is the trimmed text of a line of the input. *)
Theorem parseItems_clean (input : string) :
  Forall (fun item =>
            item <> ""
            /\ noLF item
            /\ exists line, In line (App.split_nl input)
                            /\ item = App.trim line)
         (App.parseItems input).
Proof.
  apply Forall_forall. intros item Hin.
  unfold App.parseItems in Hin. apply filter_In in Hin as [Hin Ht].
  apply in_map_iff in Hin as (line & <- & Hline).
  split; [now apply truthy_true|]. split.
  - apply trim_noLF.
    pose proof (split_nl_all_noLF input) as Hall.
    rewrite Forall_forall in Hall. now apply Hall.
  - exists line. auto.
Qed.

(** X13.  Items written one per line are read back as they are, provided
    none is empty, none has a line feed and trimming changes none. *)
Theorem parse_join_round_trip (items : list string) :
  items <> [] ->
  Forall (fun item => item <> "" /\ noLF item /\ App.trim item = item) items ->
  App.parseItems (App.join_nl items) = items.
Proof.
  intros Hne Hall. unfold App.parseItems.
  rewrite split_join; [|exact Hne|].
  - assert (map App.trim items = items) as ->.
    { clear Hne. induction Hall as [|x l (_ & _ & Hx) _ IH]; [reflexivity|].
      simpl. now rewrite Hx, IH. }
    clear Hne. induction Hall as [|x l (Hx & _ & _) _ IH]; [reflexivity|].
    simpl. apply truthy_true in Hx. now rewrite Hx, IH.
  - eapply Forall_impl; [|exact Hall]. simpl. tauto.
Qed.

Lemma parse_join_round_trip_witness :
  ["apple"; "banana"; "cherry"; "date"; "elderberry"; "fig"; "grape"] <> []
  /\ App.parseItems (App.dataInput App.initial)
     = ["apple"; "banana"; "cherry"; "date"; "elderberry"; "fig"; "grape"].
Proof.
  split; [discriminate|].
  apply (@parse_join_round_trip
           ["apple"; "banana"; "cherry"; "date"; "elderberry"; "fig";
            "grape"]); [discriminate|].
  repeat (constructor;
          [split; [discriminate|split; [|reflexivity]];
           unfold noLF; simpl; repeat (constructor; [discriminate|]);
           constructor|]).
  constructor.
Defined.

(** The proof of a leaf of a built tree verifies, and has as many steps as
    there are levels. *)
Lemma leaf_verifies subtle d (items : list string) (st i : nat) item :
  subtle = Some d -> nth_error items i = Some item ->
  exists rt st' prf,
    let t := MkTree (leavesAt d st items) rt
                    (fillLeafMap (leavesAt d st items)) in
    build subtle items st = Ok (t, st')
    /\ getProof t (Z.of_nat i) = Ok prf
    /\ verifyProof subtle item prf (Node.hash rt) = Ok true
    /\ length prf = Nat.log2_up (length items).
Proof.
  intros Hc Hi.
  assert (i < length items) as Hlt by (apply nth_error_Some; congruence).
  destruct (build_proof Hc items st i Hi)
    as (rt & st' & prf & E & Hinv & Hleaf & Hprf & Hpath).
  exists rt, st', prf. cbv zeta.
  split; [exact E|]. split; [exact Hprf|].
  pose proof (@root_inv _ _ _ _ _ _ Hinv) as (Hwf & _ & Hd & _).
  split.
  - rewrite (verifyProof_spec_eq Hc). unfold spec_verifyProof.
    change (hexDigest d item)
      with (Node.hash (MkNode (st + i) (hexDigest d item) None None
                              (Some item))).
    rewrite (path_fold Hwf Hpath). now rewrite String.eqb_refl.
  - apply (Hd _ _ _ Hpath). simpl. lia.
Qed.

Lemma getProof_out_of_range t index :
  (index < 0 \/ index >= Z.of_nat (length (leaves t)))%Z ->
  getProof t index = Throw IndexOutOfRange.
Proof.
  intro Hi. unfold getProof.
  destruct (Z.ltb_spec index 0) as [|Hge]; [reflexivity|].
  destruct Hi as [|Hi]; [lia|].
  rewrite Z.geb_leb.
  destruct (Z.leb_spec (Z.of_nat (length (leaves t))) index);
    [reflexivity | lia].
Qed.

Lemma getProof_ok_in_range t index prf :
  getProof t index = Ok prf ->
  (0 <= index < Z.of_nat (length (leaves t)))%Z.
Proof.
  intro E.
  destruct (Z_lt_ge_dec index 0) as [H | H];
    [rewrite getProof_out_of_range in E by lia; discriminate|].
  destruct (Z_lt_ge_dec index (Z.of_nat (length (leaves t)))) as [H' | H'];
    [lia|].
  rewrite getProof_out_of_range in E by lia. discriminate.
Qed.

Lemma getProof_throw t index e :
  getProof t index = Throw e -> e = IndexOutOfRange \/ e = MalformedTree.
Proof.
  unfold getProof. destruct (_ || _); [intros [= <-]; now left|].
  unfold generateProof.
  destruct (traverse _ (root t) []) as [[b s]|e'] eqn:Et; simpl;
    [discriminate|].
  intros [= <-]. right. eapply traverse_throw. eassumption.
Qed.

Lemma verifyProof_closed subtle data prf rootHash :
  verifyProof subtle data prf rootHash
  = match subtle with
    | Some d => Ok (spec_verifyProof d data prf rootHash)
    | None => Throw NoCrypto
    end.
Proof.
  destruct subtle as [d|]; [|reflexivity].
  now apply verifyProof_spec_eq.
Qed.

(** X14.  After [buildTree] the page shows an error exactly when no line
    of the input has text or the platform has no digest, and a tree
    exactly when it shows no error; the error of [build] for an empty list
    is never shown.  Proof and verdict are cleared either way. *)
Theorem page_buildTree_outcome subtle (s : App.State) (st : nat) :
  let s' := fst (App.buildTree subtle s st) in
  App.error s'
  = match App.parseItems (App.dataInput s), subtle with
    | [], _ => Some "Enter at least one data item."
    | _ :: _, None =>
        Some "No secure crypto implementation found for SHA-256"
    | _ :: _, Some _ => None
    end
  /\ match App.tree s' with
     | Some _ => App.error s' = None
     | None => App.error s' <> None
     end
  /\ App.proof s' = [] /\ App.proofValid s' = None
  /\ App.dataInput s' = App.dataInput s.
Proof.
  cbv zeta. unfold App.buildTree.
  destruct (App.parseItems (App.dataInput s)) as [|x items] eqn:Ep.
  - simpl. repeat split; discriminate.
  - change (Nat.eqb (length (x :: items)) 0) with false. cbv iota.
    destruct subtle as [d|].
    + destruct (@build_inv (Some d) d eq_refl (x :: items) st)
        as (rt & st' & E & _); [discriminate|].
      rewrite E. simpl. repeat split.
    + change (build None (x :: items) st) with (@Throw (MerkleTree * nat) NoCrypto).
      simpl. repeat split; discriminate.
Qed.

(** X15.  With the platform digest and at least one line of text,
    [buildTree] shows the tree [build] makes of the parsed items, whose
    leaves hold those items in order, with the first leaf selected and no
    proof yet. *)
Theorem page_buildTree_success subtle d (s : App.State) (st : nat) :
  subtle = Some d -> App.parseItems (App.dataInput s) <> [] ->
  exists t st',
    build subtle (App.parseItems (App.dataInput s)) st = Ok (t, st')
    /\ App.buildTree subtle s st
       = (App.MkState (App.dataInput s) (Some t) 0 [] None None, st')
    /\ map Node.data (leaves t)
       = map Some (App.parseItems (App.dataInput s)).
Proof.
  intros Hc Hne.
  destruct (build_inv Hc st Hne) as (rt & st' & E & _).
  eexists _, st'. split; [exact E|]. split.
  - unfold App.buildTree.
    destruct (App.parseItems (App.dataInput s)) as [|x items];
      [congruence|].
    change (Nat.eqb (length (x :: items)) 0) with false. cbv iota.
    now rewrite E.
  - simpl leaves. apply leavesAt_data.
Qed.

Lemma page_buildTree_success_witness :
  webCrypto = Some SHA256.digest
  /\ App.parseItems (App.dataInput App.initial) <> []
  /\ exists t st',
      App.buildTree webCrypto App.initial 0
      = (App.MkState (App.dataInput App.initial) (Some t) 0 [] None None, st').
Proof.
  assert (App.parseItems (App.dataInput App.initial) <> []) as Hne
      by (vm_compute; discriminate).
  split; [reflexivity|]. split; [exact Hne|].
  destruct (@page_buildTree_success webCrypto SHA256.digest App.initial 0
              eq_refl Hne) as (t & st' & _ & E & _).
  exists t, st'. exact E.
Defined.

(** X16.  After a successful [buildTree], selecting any leaf of the tree
    stores the proof [getProof] returns for it, of [ceil(log2 n)] steps,
    with the verdict valid and no error. *)
Theorem page_selectLeaf_valid subtle d (s : App.State) (st : nat) (idx : Z) :
  subtle = Some d ->
  (0 <= idx < Z.of_nat (length (App.parseItems (App.dataInput s))))%Z ->
  exists t st' prf,
    App.buildTree subtle s st
    = (App.MkState (App.dataInput s) (Some t) 0 [] None None, st')
    /\ getProof t idx = Ok prf
    /\ App.selectLeaf subtle
         (App.MkState (App.dataInput s) (Some t) 0 [] None None) idx
       = App.MkState (App.dataInput s) (Some t) idx prf (Some true) None
    /\ length prf = Nat.log2_up (length (App.parseItems (App.dataInput s))).
Proof.
  intros Hc Hidx.
  set (items := App.parseItems (App.dataInput s)) in *.
  assert (Z.to_nat idx < length items) as Hlt by lia.
  destruct (nth_error items (Z.to_nat idx)) as [item|] eqn:Hi;
    [|apply nth_error_None in Hi; lia].
  destruct (@leaf_verifies subtle d items st (Z.to_nat idx) item Hc Hi)
    as (rt & st' & prf & E & Hp & Hv & Hl).
  rewrite Z2Nat.id in Hp by lia.
  exists (MkTree (leavesAt d st items) rt
                 (fillLeafMap (leavesAt d st items))), st', prf.
  split; [|split; [exact Hp|split; [|exact Hl]]].
  - unfold App.buildTree. fold items.
    destruct items as [|x its]; [simpl in Hlt; lia|].
    change (Nat.eqb (length (x :: its)) 0) with false. cbv iota.
    rewrite E. reflexivity.
  - unfold App.selectLeaf.
    cbn [App.tree App.dataInput App.error]. rewrite Hp.
    cbn [leaves].
    rewrite (leavesAt_nth d items st (Z.to_nat idx) Hi).
    cbn [Node.data]. unfold getRootHash. cbn [root].
    rewrite Hv. reflexivity.
Qed.

Lemma page_selectLeaf_valid_witness :
  webCrypto = Some SHA256.digest
  /\ (0 <= 6 < Z.of_nat (length (App.parseItems
                                   (App.dataInput App.initial))))%Z
  /\ exists t st' prf,
      App.buildTree webCrypto App.initial 0
      = (App.MkState (App.dataInput App.initial) (Some t) 0 [] None None,
         st')
      /\ getProof t 6 = Ok prf
      /\ App.selectLeaf webCrypto
           (App.MkState (App.dataInput App.initial) (Some t) 0 [] None None)
           6
         = App.MkState (App.dataInput App.initial) (Some t) 6 prf
                       (Some true) None.
Proof.
  assert (0 <= 6 < Z.of_nat (length (App.parseItems
                                       (App.dataInput App.initial))))%Z
    as Hidx by (vm_compute; split; [discriminate | reflexivity]).
  split; [reflexivity|]. split; [exact Hidx|].
  destruct (@page_selectLeaf_valid webCrypto SHA256.digest App.initial 0 6
              eq_refl Hidx) as (t & st' & prf & E & Hp & Hs & _).
  exists t, st', prf. auto.
Defined.

(** X17.  Selecting an index outside the leaves keeps the tree, records
    the index as selected all the same, clears proof and verdict and
    shows the index error. *)
Theorem page_selectLeaf_out_of_range subtle (s : App.State) t (idx : Z) :
  App.tree s = Some t ->
  (idx < 0 \/ idx >= Z.of_nat (length (leaves t)))%Z ->
  App.selectLeaf subtle s idx
  = App.MkState (App.dataInput s) (Some t) idx [] None
                (Some "Invalid leaf index").
Proof.
  intros Ht Hidx. unfold App.selectLeaf. rewrite Ht.
  rewrite (getProof_out_of_range _ Hidx).
  unfold App.selectFailed. now rewrite Ht.
Qed.

Lemma page_selectLeaf_out_of_range_witness :
  let t := MkTree [MkNode 0 "" None None (Some "x")]
                  (MkNode 0 "" None None (Some "x")) [] in
  let s := App.MkState "x" (Some t) 0 [] None None in
  App.tree s = Some t
  /\ (1 < 0 \/ 1 >= Z.of_nat (length (leaves t)))%Z
  /\ App.selectLeaf webCrypto s 1
     = App.MkState "x" (Some t) 1 [] None (Some "Invalid leaf index").
Proof.
  cbv zeta. split; [reflexivity|]. split; [right; simpl; lia|].
  apply (@page_selectLeaf_out_of_range webCrypto
           (App.MkState "x"
              (Some (MkTree [MkNode 0 "" None None (Some "x")]
                            (MkNode 0 "" None None (Some "x")) []))
              0 [] None None)
           (MkTree [MkNode 0 "" None None (Some "x")]
                   (MkNode 0 "" None None (Some "x")) [])
           1);
    [reflexivity | right; simpl; lia].
Defined.

(** X18.  Whatever the state and the index, the error [selectLeaf] leaves
    is the one that was there or one of three messages of the source: the
    index error, the malformed-tree error, the missing-crypto error. *)
Theorem page_selectLeaf_errors subtle (s : App.State) (idx : Z) :
  let e := App.error (App.selectLeaf subtle s idx) in
  e = App.error s
  \/ e = Some "Invalid leaf index"
  \/ e = Some "Malformed tree"
  \/ e = Some "No secure crypto implementation found for SHA-256".
Proof.
  cbv zeta. unfold App.selectLeaf.
  destruct (App.tree s) as [t|]; [|now left].
  destruct (getProof t idx) as [prf|e] eqn:Ep.
  - apply getProof_ok_in_range in Ep.
    destruct (nth_error (leaves t) (Z.to_nat idx)) as [leaf|] eqn:En;
      [|apply nth_error_None in En; lia].
    rewrite verifyProof_closed.
    destruct subtle as [d|]; simpl; auto.
  - apply getProof_throw in Ep as [-> | ->]; simpl; auto.
Qed.

(* ================================================================== *)
(** ** The tree view *)
(* ================================================================== *)

Lemma append_snoc (a : string) c (p : string) :
  (a ++ String c "") ++ p = a ++ String c p.
Proof. induction a as [|x a IH]; simpl; [reflexivity | now rewrite IH]. Qed.



(** The drawing of a well-formed tree: one box per node, in the same
    order, with the key and the depth of the way down to it. *)
Lemma render_wf d hh t :
  WellFormed d t ->
  forall depth key,
    exists b,
      TreeVisualizer.renderNode hh t depth key = Some b
      /\ map (fun x => (TreeVisualizer.key x, TreeVisualizer.depth x))
             (TreeVisualizer.boxes b)
         = map (fun p => (key ++ p, depth + String.length p)) (paths t)
      /\ map TreeVisualizer.hash (TreeVisualizer.boxes b)
         = map Node.hash (nodes t).
Proof.
  induction 1 as [a h dt | a l r dt Hl IHl Hr IHr]; intros depth key.
  - eexists. split; [reflexivity|]. simpl.
    rewrite append_nil_r, Nat.add_0_r. auto.
  - destruct (IHl (S depth) (key ++ "L")) as (bl & El & Kl & Hhl).
    destruct (IHr (S depth) (key ++ "R")) as (br & Er & Kr & Hhr).
    exists (TreeVisualizer.NodeBox key depth
              (match hh with
               | Some x => String.eqb (hexDigest d (Node.hash l ++ Node.hash r)) x
               | None => false
               end)
              (hexDigest d (Node.hash l ++ Node.hash r)) bl br).
    split; [|split].
    + simpl. simpl in El, Er. now rewrite El, Er.
    + simpl. rewrite append_nil_r, Nat.add_0_r. f_equal.
      rewrite !map_app, Kl, Kr, !map_map. f_equal.
      * apply map_ext. intro p. rewrite append_snoc. simpl.
        f_equal. lia.
      * apply map_ext. intro p. rewrite append_snoc. simpl.
        f_equal. lia.
    + simpl. f_equal. now rewrite !map_app, Hhl, Hhr.
Qed.

(** A box is highlighted exactly when it shows the highlighted hash. *)
Lemma render_highlight hh t :
  forall depth key b,
    TreeVisualizer.renderNode (Some hh) t depth key = Some b ->
    forall x, In x (TreeVisualizer.boxes b) ->
              TreeVisualizer.isHighlight x
              = String.eqb (TreeVisualizer.hash x) hh.
Proof.
  induction t as [a h l r dt IHl IHr] using node_ind.
  intros depth key b E x Hx.
  destruct l as [l|], r as [r|]; simpl in IHl, IHr; simpl in E;
    try discriminate.
  - destruct (TreeVisualizer.renderNode (Some hh) l (S depth) (key ++ "L"))
      as [bl|] eqn:El; [|discriminate].
    destruct (TreeVisualizer.renderNode (Some hh) r (S depth) (key ++ "R"))
      as [br|] eqn:Er; [|discriminate].
    injection E as <-. simpl in Hx.
    destruct Hx as [<- | Hx]; [reflexivity|].
    apply in_app_or in Hx as [Hx | Hx].
    + exact (IHl _ _ _ El _ Hx).
    + exact (IHr _ _ _ Er _ Hx).
  - destruct (TreeVisualizer.renderNode (Some hh) l (S depth) (key ++ "L"));
      discriminate.
  - injection E as <-. destruct Hx as [<- | []]. reflexivity.
Qed.

Lemma filter_length_map (A : Type) (f : A -> bool) (l : list A) :
  length (filter f l) = length (filter (fun b : bool => b) (map f l)).
Proof.
  induction l as [|x l IH]; [reflexivity|].
  simpl. destruct (f x); simpl; now rewrite IH.
Qed.

Lemma fringe_count d (f : MerkleNode -> bool) t :
  WellFormed d t ->
  length (filter f (fringe t)) <= length (filter f (nodes t)).
Proof.
  induction 1 as [a h dt | a l r dt Hl IHl Hr IHr].
  - simpl. destruct (f _); simpl; lia.
  - change (fringe (MkNode a (hexDigest d (Node.hash l ++ Node.hash r))
                           (Some l) (Some r) dt))
      with (fringe l ++ fringe r)%list.
    simpl nodes. simpl filter.
    rewrite !filter_app, !length_app.
    destruct (f _); simpl; rewrite ?filter_app, ?length_app; lia.
Qed.

Lemma leavesAt_count d item items :
  forall st,
    length (filter (String.eqb item) items)
    <= length (filter (fun n => String.eqb (Node.hash n) (hexDigest d item))
                      (leavesAt d st items)).
Proof.
  induction items as [|x items IH]; intro st; [reflexivity|].
  simpl. specialize (IH (S st)).
  destruct (String.eqb_spec item x) as [<- | Hne].
  - rewrite String.eqb_refl. simpl. lia.
  - destruct (String.eqb _ _); simpl; lia.
Qed.



(** X20.  The tree view highlights by hash, not by leaf: with the leaf at
    index [i] selected, a box is highlighted exactly when it shows the
    hash of [items[i]], so at least as many boxes are highlighted as
    there are items equal to [items[i]]. *)
Theorem treeview_highlights_equal_hashes subtle d (items : list string)
    (i st : nat) (item : string) :
  subtle = Some d -> nth_error items i = Some item ->
  exists t st' box,
    build subtle items st = Ok (t, st')
    /\ TreeVisualizer.render (root t) (Some (Z.of_nat i)) (leaves t)
       = Some box
    /\ (forall b, In b (TreeVisualizer.boxes box) ->
                  TreeVisualizer.isHighlight b
                  = String.eqb (TreeVisualizer.hash b) (hexDigest d item))
    /\ length (filter (String.eqb item) items)
       <= length (filter TreeVisualizer.isHighlight
                         (TreeVisualizer.boxes box)).
Proof.
  intros Hc Hi.
  assert (i < length items) as Hlt by (apply nth_error_Some; congruence).
  assert (items <> []) as Hne by (intros ->; simpl in Hlt; lia).
  destruct (build_inv Hc st Hne) as (rt & st' & E & Hinv).
  pose proof (@root_inv _ _ _ _ _ _ Hinv)
    as (Hwf & _ & _ & dups & Hf & _).
  assert (TreeVisualizer.highlightedHash (Some (Z.of_nat i))
            (leavesAt d st items) = Some (hexDigest d item)) as Hhh.
  { unfold TreeVisualizer.highlightedHash.
    destruct (Z.ltb_spec (Z.of_nat i) 0) as [|_]; [lia|].
    now rewrite Nat2Z.id, (leavesAt_nth d items st i Hi). }
  destruct (render_wf (Some (hexDigest d item)) Hwf 0 "root")
    as (box & Er & _ & Hh).
  eexists _, st', box. split; [exact E|]. simpl root. simpl leaves.
  unfold TreeVisualizer.render. rewrite Hhh.
  split; [exact Er|].
  pose proof (render_highlight _ _ _ _ Er) as Hhl.
  split; [exact Hhl|].
  rewrite (filter_ext_in _
             (fun b => String.eqb (TreeVisualizer.hash b) (hexDigest d item))
             _ Hhl).
  rewrite (filter_length_map
             (fun b => String.eqb (TreeVisualizer.hash b) (hexDigest d item))).
  rewrite <- (map_map TreeVisualizer.hash
                (fun h => String.eqb h (hexDigest d item))), Hh.
  rewrite map_map, <- filter_length_map.
  eapply Nat.le_trans; [apply (leavesAt_count d item items st)|].
  eapply Nat.le_trans; [|apply (fringe_count _ Hwf)].
  rewrite Hf, filter_app, length_app. lia.
Qed.

Lemma treeview_highlights_equal_hashes_witness :
  webCrypto = Some SHA256.digest
  /\ nth_error ["x"; "y"; "x"] 0 = Some "x"
  /\ exists t st' box,
      build webCrypto ["x"; "y"; "x"] 0 = Ok (t, st')
      /\ TreeVisualizer.render (root t) (Some (Z.of_nat 0)) (leaves t)
         = Some box
      /\ 2 <= length (filter TreeVisualizer.isHighlight
                             (TreeVisualizer.boxes box)).
Proof.
  split; [reflexivity|]. split; [reflexivity|].
  destruct (@treeview_highlights_equal_hashes webCrypto SHA256.digest
              ["x"; "y"; "x"] 0 0 "x" eq_refl eq_refl)
    as (t & st' & box & E & Er & _ & Hn).
  exists t, st', box. auto.
Defined.

(* ================================================================== *)
(** ** What a proof does and does not pin down *)
(* ================================================================== *)

(** X21.  The proof of the leaf at index [i] verifies every data item
    with the UTF-8 bytes of [items[i]]; and a data item it verifies has
    those bytes, or else its verification and that of [items[i]] hashed
    two texts of different bytes to the same digest. *)
Theorem proof_verifies_item_or_collision subtle d (items : list string)
    (i st : nat) (item : string) :
  subtle = Some d -> nth_error items i = Some item ->
  exists t st' prf,
    build subtle items st = Ok (t, st')
    /\ getProof t (Z.of_nat i) = Ok prf
    /\ (forall data,
          utf8 data = utf8 item ->
          verifyProof subtle data prf (getRootHash t) = Ok true)
    /\ (forall data,
          verifyProof subtle data prf (getRootHash t) = Ok true ->
          utf8 data = utf8 item
          \/ exists x y,
              In x (hashedTexts d data prf) /\ In y (hashedTexts d item prf)
              /\ utf8 x <> utf8 y /\ d (utf8 x) = d (utf8 y)).
Proof.
  intros Hc Hi.
  destruct (@leaf_verifies subtle d items st i item Hc Hi)
    as (rt & st' & prf & E & Hp & Hv & _).
  eexists _, st', prf. split; [exact E|]. split; [exact Hp|].
  unfold getRootHash. simpl root. split.
  - intros data Eb.
    rewrite (verifyProof_spec_eq Hc) in Hv. rewrite (verifyProof_spec_eq Hc).
    unfold spec_verifyProof, hexDigest in *. now rewrite Eb.
  - intros data Hd.
    rewrite (verifyProof_spec_eq Hc) in Hd, Hv.
    unfold spec_verifyProof in Hd, Hv.
    injection Hd as Hd. injection Hv as Hv.
    apply String.eqb_eq in Hd, Hv.
    apply fold_same_bytes_or_collision. congruence.
Qed.

Lemma proof_verifies_item_or_collision_witness :
  webCrypto = Some SHA256.digest
  /\ nth_error ["a"; "b"; "c"] 1 = Some "b"
  /\ exists t st' prf,
      build webCrypto ["a"; "b"; "c"] 0 = Ok (t, st')
      /\ getProof t (Z.of_nat 1) = Ok prf
      /\ verifyProof webCrypto "b" prf (getRootHash t) = Ok true.
Proof.
  split; [reflexivity|]. split; [reflexivity|].
  destruct (@proof_verifies_item_or_collision webCrypto SHA256.digest
              ["a"; "b"; "c"] 1 0 "b" eq_refl eq_refl)
    as (t & st' & prf & E & Hp & Hyes & _).
  exists t, st', prf. split; [exact E|]. split; [exact Hp|].
  now apply Hyes.
Defined.

(** The step with its direction turned round. *)
Lemma spec_step_flip d c (s : MerkleProofStep) :
  siblingHash s = c ->
  spec_step d c s
  = spec_step d c
      (Step (siblingHash s)
            (match direction s with Left => Right | Right => Left end)).
Proof.
  intros <-. unfold spec_step. simpl. now destruct (direction s).
Qed.

(** X22.  [verifyProof] does not bind the direction of a step whose
    sibling hash equals the hash computed so far, as at every duplicate:
    turning that direction round changes nothing of the result. *)
Theorem verifyProof_direction_immaterial subtle d (data : string)
    (before : MerkleProof) (s : MerkleProofStep) (after : MerkleProof)
    (rootHash : string) :
  subtle = Some d ->
  verifyLoop subtle (hexDigest d data) before = Ok (siblingHash s) ->
  verifyProof subtle data (before ++ s :: after)%list rootHash
  = verifyProof subtle data
      (before
       ++ Step (siblingHash s)
               (match direction s with Left => Right | Right => Left end)
       :: after)%list
      rootHash.
Proof.
  intros Hc Hb.
  rewrite (verifyLoop_fold Hc) in Hb. injection Hb as Hb.
  rewrite !(verifyProof_spec_eq Hc). unfold spec_verifyProof.
  rewrite !fold_left_app. simpl.
  now rewrite (@spec_step_flip d _ s (eq_sym Hb)).
Qed.

Lemma verifyProof_direction_immaterial_witness :
  webCrypto = Some SHA256.digest
  /\ verifyLoop webCrypto (hexDigest SHA256.digest "c") []
     = Ok (siblingHash (Step (hexDigest SHA256.digest "c") Right))
  /\ forall after rootHash,
      verifyProof webCrypto "c"
        (Step (hexDigest SHA256.digest "c") Right :: after) rootHash
      = verifyProof webCrypto "c"
          (Step (hexDigest SHA256.digest "c") Left :: after) rootHash.
Proof.
  split; [reflexivity|]. split; [reflexivity|].
  intros after rootHash.
  apply (@verifyProof_direction_immaterial webCrypto SHA256.digest "c" []
           (Step (hexDigest SHA256.digest "c") Right) after rootHash);
    reflexivity.
Defined.

(** X23.  [verifyProof] cannot tell an inner node from a leaf: with more
    than one item, the text of the two hashes under the parent of a leaf,
    left first, verifies as a data item against the root with the proof
    of that leaf less its first step. *)
Theorem inner_node_verifies_as_leaf subtle d (items : list string)
    (i st : nat) (item : string) :
  subtle = Some d -> nth_error items i = Some item -> 1 < length items ->
  exists t st' s1 rest,
    build subtle items st = Ok (t, st')
    /\ getProof t (Z.of_nat i) = Ok (s1 :: rest)
    /\ verifyProof subtle
         (match direction s1 with
          | Left => siblingHash s1 ++ hexDigest d item
          | Right => hexDigest d item ++ siblingHash s1
          end)
         rest (getRootHash t)
       = Ok true.
Proof.
  intros Hc Hi Hn.
  destruct (@leaf_verifies subtle d items st i item Hc Hi)
    as (rt & st' & prf & E & Hp & Hv & Hl).
  destruct prf as [|s1 rest].
  { simpl in Hl. pose proof (Nat.log2_up_pos _ Hn). lia. }
  eexists _, st', s1, rest. split; [exact E|]. split; [exact Hp|].
  unfold getRootHash. simpl root.
  rewrite (verifyProof_spec_eq Hc) in Hv. rewrite (verifyProof_spec_eq Hc).
  unfold spec_verifyProof in *. simpl in Hv.
  unfold spec_step at 2 in Hv. now destruct (direction s1).
Qed.

Lemma inner_node_verifies_as_leaf_witness :
  webCrypto = Some SHA256.digest
  /\ nth_error ["a"; "b"; "c"] 0 = Some "a"
  /\ 1 < length ["a"; "b"; "c"]
  /\ exists t st' s1 rest,
      build webCrypto ["a"; "b"; "c"] 0 = Ok (t, st')
      /\ getProof t (Z.of_nat 0) = Ok (s1 :: rest)
      /\ verifyProof webCrypto
           (match direction s1 with
            | Left => siblingHash s1 ++ hexDigest SHA256.digest "a"
            | Right => hexDigest SHA256.digest "a" ++ siblingHash s1
            end)
           rest (getRootHash t)
         = Ok true.
Proof.
  split; [reflexivity|]. split; [reflexivity|]. split; [simpl; lia|].
  apply (@inner_node_verifies_as_leaf webCrypto SHA256.digest
           ["a"; "b"; "c"] 0 0 "a"); [reflexivity | reflexivity | simpl; lia].
Defined.
